(** * MHV-PS: row-level authorization policies and the key-conversion helper

    A shallow embedding of
    - [supabase/migrations/20250911100241_weathered_gate.sql]: the tables,
      their constraints, the row-level security policies, the seed data and
      the two statistics views;
    - the [usePermits] hook: its [toSnakeCase] helper, the updates of the list
      of permits and [generatePermitNumber];
    - the interceptors of the HTTP client of [services/api.ts].

    SQL expressions are embedded with their three-valued logic.  A policy is
    its expression, a function from the database, the caller ([auth.uid()])
    and a row to an SQL boolean, together with the relations that the
    sub-queries of the expression read.

    A statement goes through two stages, as in PostgreSQL.  The rewriter
    ([QueryRewrite]) adds the policies of the relation to the statement and
    then those of every relation a sub-query of a policy reads; a relation
    that comes up again while its own policies are being added ends the
    statement with "infinite recursion detected in policy for relation"
    (42P17).  The executor ([select], [insert], [update], [delete]) then
    filters and checks the rows with the expressions, each sub-query
    answered from the rows of the table it names; in a session under row
    security it never has one to answer ([rewritten_without_sublinks]).
    [statement.select] and
    the like are the two stages together, for a session to which row
    security applies and for one that bypasses it (the owner of the tables,
    as the migration itself is run, or a role with BYPASSRLS). *)

From stdpp Require Import base strings list gmap.
From Stdlib Require Import ZArith Ascii PrimFloat DecimalString DecimalN.

Local Open Scope string_scope.
Local Open Scope list_scope.

(* ===================================================================== *)
(** ** SQL values *)
(* ===================================================================== *)

(** [uuid] is a 128-bit number, [text] a string, [timestamptz] and [date]
    a count of microseconds resp. days.  A nullable column is an [option]. *)
Definition uuid := N.
Definition text := string.
Definition timestamptz := Z.
Definition date := Z.

(** [jsonb]: objects have unique, unordered keys. *)
#[warnings="-register-all"]
Inductive jsonb :=
| JNull
| JBool (b : bool)
| JNumber (n : Z)
| JString (s : string)
| JArray (l : list jsonb)
| JObject (m : gmap string jsonb).

(** [j -> k] on a jsonb value. *)
Definition jsonb_get (j : jsonb) (k : string) : option jsonb :=
  match j with
  | JObject m => m !! k
  | _ => None
  end.

(** The keys of a jsonb object. *)
Definition jsonb_keys (j : jsonb) : gset string :=
  match j with
  | JObject m => dom m
  | _ => ∅
  end.

(** Three-valued logic: [None] is SQL's NULL. *)
Definition sqlbool := option bool.

Definition sql_and (a b : sqlbool) : sqlbool :=
  match a, b with
  | Some false, _ => Some false
  | _, Some false => Some false
  | Some true, Some true => Some true
  | _, _ => None
  end.

Definition sql_or (a b : sqlbool) : sqlbool :=
  match a, b with
  | Some true, _ => Some true
  | _, Some true => Some true
  | Some false, Some false => Some false
  | _, _ => None
  end.

Definition sql_not (a : sqlbool) : sqlbool := negb <$> a.

(** [a = b]: NULL as soon as one side is NULL. *)
Definition sql_eq {A} `{EqDecision A} (a b : option A) : sqlbool :=
  match a, b with
  | Some x, Some y => Some (bool_decide (x = y))
  | _, _ => None
  end.

(** [a != b]. *)
Definition sql_ne {A} `{EqDecision A} (a b : option A) : sqlbool :=
  sql_not (sql_eq a b).

(** [a IS NULL] is never NULL itself. *)
Definition sql_is_null {A} (a : option A) : sqlbool :=
  Some (match a with None => true | Some _ => false end).

(** [a IN (v1, ..., vn)]: the disjunction of the equalities. *)
Definition sql_in {A} `{EqDecision A} (a : option A) (vs : list A) : sqlbool :=
  foldr (fun v acc => sql_or (sql_eq a (Some v)) acc) (Some false) vs.

(** A row passes a WHERE clause, a USING or a WITH CHECK expression only when
    the expression is true; NULL is treated as false. *)
Definition holds (b : sqlbool) : bool :=
  match b with
  | Some true => true
  | _ => false
  end.

(** A CHECK constraint is violated only when the expression is false. *)
Definition check_passes (b : sqlbool) : bool :=
  match b with
  | Some false => false
  | _ => true
  end.

(** [EXISTS (SELECT 1 FROM tbl WHERE cond)]. *)
Definition sql_exists {R} (tbl : list R) (cond : R → sqlbool) : sqlbool :=
  Some (existsb (fun r => holds (cond r)) tbl).

(** [a @> b] on arrays: every element of [b] occurs in [a]; a NULL element
    matches nothing. *)
Definition array_contains {A} `{EqDecision A} (a b : list (option A)) : sqlbool :=
  Some (forallb (fun y =>
          match y with
          | None => false
          | Some _ => bool_decide (y ∈ a)
          end) b).

Declare Scope sql_scope.
Delimit Scope sql_scope with sql.
Bind Scope sql_scope with sqlbool.
Notation "a 'AND' b" := (sql_and a b) (at level 75, right associativity) : sql_scope.
Notation "a 'OR' b" := (sql_or a b) (at level 76, right associativity) : sql_scope.
Notation "a '@>' b" := (array_contains a b) (at level 70) : sql_scope.

(* ===================================================================== *)
(** ** The tables *)
(* ===================================================================== *)

Module role_permissions.
Record row := mk {
  id : uuid;                          (* PRIMARY KEY *)
  role : text;                        (* UNIQUE NOT NULL *)
  permissions : jsonb;                (* NOT NULL *)
  updated_at : option timestamptz
}.
End role_permissions.

Module regions.
Record row := mk {
  id : uuid;                          (* PRIMARY KEY *)
  code : text;                        (* UNIQUE NOT NULL *)
  name_en : text;
  name_ar : text;
  created_at : option timestamptz
}.
End regions.

Module users.
Record row := mk {
  id : uuid;                          (* PRIMARY KEY *)
  username : text;                    (* UNIQUE NOT NULL *)
  password : text;
  email : text;                       (* UNIQUE NOT NULL *)
  first_name : text;
  last_name : text;
  region : list (option text);        (* text[] NOT NULL *)
  role : text;                        (* NOT NULL REFERENCES role_permissions(role) *)
  permissions : option jsonb;
  created_at : option timestamptz;
  last_login : option timestamptz
}.
End users.

Module permits.
Record row := mk {
  id : uuid;                          (* PRIMARY KEY *)
  permit_number : text;               (* UNIQUE NOT NULL *)
  date : date;
  region : text;
  location : text;
  carrier_name : text;
  carrier_id : text;
  request_type : text;
  vehicle_plate : text;
  materials : jsonb;
  closed_by : option uuid;            (* REFERENCES users(id) *)
  closed_at : option timestamptz;
  closed_by_name : option text;
  can_reopen : option bool;           (* boolean DEFAULT true, nullable *)
  created_by : uuid;                  (* REFERENCES users(id) NOT NULL *)
  created_at : option timestamptz
}.
End permits.

Module activity_logs.
Record row := mk {
  id : uuid;                          (* PRIMARY KEY *)
  user_id : uuid;                     (* REFERENCES users(id) NOT NULL *)
  name : text;
  username : text;
  action : text;
  details : text;
  timestamp : option timestamptz;
  ip : option text;
  user_agent : option text
}.
End activity_logs.

Record database := Database {
  tbl_users : list users.row;
  tbl_permits : list permits.row;
  tbl_activity_logs : list activity_logs.row;
  tbl_role_permissions : list role_permissions.row;
  tbl_regions : list regions.row
}.

(* ===================================================================== *)
(** ** Row-level security policies *)
(* ===================================================================== *)

(** The five relations. *)
Inductive relname :=
| r_users
| r_permits
| r_activity_logs
| r_role_permissions
| r_regions.

#[global] Instance relname_eq_dec : EqDecision relname.
Proof. solve_decision. Defined.

(** A policy: its USING or WITH CHECK expression, and the relations named in
    the FROM clauses of the sub-queries of the expression. *)
Record policy (R : Type) := Policy {
  qual : R → sqlbool;
  sublinks : list relname
}.
Arguments Policy {R} qual sublinks.
Arguments qual {R} _ _.
Arguments sublinks {R} _.

(** The expressions are given as the executor evaluates them: a sub-query
    [EXISTS (SELECT 1 FROM users ...)] is answered from the rows of [users].
    What the rewriter needs of an expression, the relations of its
    sub-queries, is with the lists of policies below; in a session to which
    the row security of [users] applies the rewriter ends the statement
    before such a sub-query is answered (see [QueryRewrite]). *)
Section Policies.
Variable db : database.
(** [auth.uid()]: NULL for a request without an identity. *)
Variable uid : option uuid.

Local Open Scope sql_scope.

(** *** users *)

(** "Users can read own data" *)
Definition users_read_own (r : users.row) : sqlbool :=
  sql_eq uid (Some (users.id r)).

(** "Admins can read all users" *)
Definition users_admin_read (r : users.row) : sqlbool :=
  sql_exists (tbl_users db) (fun u =>
    sql_eq (Some (users.id u)) uid AND sql_eq (Some (users.role u)) (Some "admin")).

(** "Admins can create users" *)
Definition users_admin_create (new : users.row) : sqlbool :=
  sql_exists (tbl_users db) (fun u =>
    sql_eq (Some (users.id u)) uid AND sql_eq (Some (users.role u)) (Some "admin")).

(** "Admins can update users" *)
Definition users_admin_update (r : users.row) : sqlbool :=
  sql_exists (tbl_users db) (fun u =>
    sql_eq (Some (users.id u)) uid AND sql_eq (Some (users.role u)) (Some "admin")).

(** "Admins can delete users" *)
Definition users_admin_delete (r : users.row) : sqlbool :=
  sql_exists (tbl_users db) (fun u =>
    sql_eq (Some (users.id u)) uid AND sql_eq (Some (users.role u)) (Some "admin"))
  AND sql_ne (Some (users.id r)) uid.

(** *** permits *)

(** "Users can view permits in their regions" *)
Definition permits_view_in_regions (p : permits.row) : sqlbool :=
  sql_exists (tbl_users db) (fun u =>
    sql_eq (Some (users.id u)) uid
    AND (users.region u @> [Some (permits.region p)]
         OR sql_in (Some (users.role u)) ["admin"; "manager"])).

(** "Managers and admins can create permits" *)
Definition permits_create (new : permits.row) : sqlbool :=
  sql_exists (tbl_users db) (fun u =>
    sql_eq (Some (users.id u)) uid
    AND sql_in (Some (users.role u)) ["admin"; "manager"]
    AND (users.region u @> [Some (permits.region new)]
         OR sql_eq (Some (users.role u)) (Some "admin"))).

(** "Managers and admins can update permits" *)
Definition permits_update (p : permits.row) : sqlbool :=
  sql_exists (tbl_users db) (fun u =>
    sql_eq (Some (users.id u)) uid
    AND sql_in (Some (users.role u)) ["admin"; "manager"]
    AND (users.region u @> [Some (permits.region p)]
         OR sql_eq (Some (users.role u)) (Some "admin")))
  AND sql_is_null (permits.closed_at p).

(** "Admins can delete permits" *)
Definition permits_admin_delete (p : permits.row) : sqlbool :=
  sql_exists (tbl_users db) (fun u =>
    sql_eq (Some (users.id u)) uid AND sql_eq (Some (users.role u)) (Some "admin")).

(** *** activity_logs *)

(** "Users can view activity logs based on role" *)
Definition activity_logs_view (l : activity_logs.row) : sqlbool :=
  sql_exists (tbl_users db) (fun u =>
    sql_eq (Some (users.id u)) uid
    AND sql_in (Some (users.role u)) ["admin"; "manager"; "security_officer"]).

(** "All authenticated users can create activity logs" *)
Definition activity_logs_create (new : activity_logs.row) : sqlbool :=
  sql_eq (Some (activity_logs.user_id new)) uid.

(** *** role_permissions *)

(** "All authenticated users can view role permissions" *)
Definition role_permissions_view (r : role_permissions.row) : sqlbool :=
  sql_exists (tbl_users db) (fun u => sql_eq (Some (users.id u)) uid).

(** "Admins can manage role permissions" (FOR ALL) *)
Definition role_permissions_admin_manage (r : role_permissions.row) : sqlbool :=
  sql_exists (tbl_users db) (fun u =>
    sql_eq (Some (users.id u)) uid AND sql_eq (Some (users.role u)) (Some "admin")).

(** *** regions *)

(** "All authenticated users can read regions" *)
Definition regions_read (r : regions.row) : sqlbool :=
  sql_exists (tbl_users db) (fun u => sql_eq (Some (users.id u)) uid).

(** *** What applies to a command

    Row-level security is enabled on the five tables.  The policies are
    permissive: a row passes a command when one of the policies that apply
    to the command holds on it; with no policy for the command, no row
    passes.  A [FOR ALL] policy applies to every command.  A policy that
    gives only [USING] is also the [WITH CHECK] of the rows it writes. *)
Inductive command := SELECT | INSERT | UPDATE | DELETE.

Definition any_policy {R} (ps : list (policy R)) (r : R) : bool :=
  existsb (fun p => holds (qual p r)) ps.

(** Each policy with the relation of its sub-query: all but "Users can read
    own data" and "All authenticated users can create activity logs" have
    one, and it is [FROM users]. *)
Definition users_policies (c : command) : list (policy users.row) :=
  match c with
  | SELECT => [Policy users_read_own []; Policy users_admin_read [r_users]]
  | INSERT => [Policy users_admin_create [r_users]]
  | UPDATE => [Policy users_admin_update [r_users]]
  | DELETE => [Policy users_admin_delete [r_users]]
  end.

Definition permits_policies (c : command) : list (policy permits.row) :=
  match c with
  | SELECT => [Policy permits_view_in_regions [r_users]]
  | INSERT => [Policy permits_create [r_users]]
  | UPDATE => [Policy permits_update [r_users]]
  | DELETE => [Policy permits_admin_delete [r_users]]
  end.

Definition activity_logs_policies (c : command)
  : list (policy activity_logs.row) :=
  match c with
  | SELECT => [Policy activity_logs_view [r_users]]
  | INSERT => [Policy activity_logs_create []]
  | UPDATE => []
  | DELETE => []
  end.

Definition role_permissions_policies (c : command)
  : list (policy role_permissions.row) :=
  match c with
  | SELECT => [Policy role_permissions_view [r_users];
               Policy role_permissions_admin_manage [r_users]]
  | _ => [Policy role_permissions_admin_manage [r_users]]
  end.

Definition regions_policies (c : command) : list (policy regions.row) :=
  match c with
  | SELECT => [Policy regions_read [r_users]]
  | _ => []
  end.
End Policies.

(* ===================================================================== *)
(** ** Constraints *)
(* ===================================================================== *)

(** [validate_region_code(region_code text)] *)
Definition validate_region_code (db : database) (region_code : option text)
  : sqlbool :=
  sql_exists (tbl_regions db) (fun r =>
    sql_eq (Some (regions.code r)) region_code).

(** [validate_user_regions(regions text[])]: the loop returns false at the
    first code that does not validate and true when it runs to its end. *)
Fixpoint validate_user_regions (db : database) (regions : list (option text))
  : sqlbool :=
  match regions with
  | [] => Some true
  | region_code :: rest =>
      if holds (sql_not (validate_region_code db region_code))
      then Some false
      else validate_user_regions db rest
  end.

(** [permits_region_check] *)
Definition permits_region_check (db : database) (p : permits.row) : sqlbool :=
  validate_region_code db (Some (permits.region p)).

(** [users_regions_check] *)
Definition users_regions_check (db : database) (u : users.row) : sqlbool :=
  validate_user_regions db (users.region u).

(** [permits_request_type_check] *)
Definition permits_request_type_check (p : permits.row) : sqlbool :=
  sql_in (Some (permits.request_type p))
    ["material_entrance"; "material_exit"; "heavy_vehicle_entrance_exit";
     "heavy_vehicle_entrance"; "heavy_vehicle_exit"].

(** [users_role_check] *)
Definition users_role_check (u : users.row) : sqlbool :=
  sql_in (Some (users.role u))
    ["admin"; "manager"; "security_officer"; "observer"].

(** How a statement ends. *)
Inductive sqlstate :=
| insufficient_privilege              (* a new row violates row-level security *)
| check_violation (constraint : string)
| unique_violation (constraint : string)
| foreign_key_violation (constraint : string)
| invalid_object_definition (relation : relname)
    (* infinite recursion detected in policy for relation *)
| statement_too_complex.              (* stack depth limit exceeded *)

Inductive outcome (A : Type) :=
| Committed (a : A)
| Aborted (e : sqlstate).
Arguments Committed {A} a.
Arguments Aborted {A} e.

#[global] Instance outcome_bind : MBind outcome := fun A B k m =>
  match m with
  | Committed a => k a
  | Aborted e => Aborted e
  end.

Definition require (b : bool) (e : sqlstate) : outcome unit :=
  if b then Committed () else Aborted e.

Fixpoint all_of (steps : list (outcome unit)) : outcome unit :=
  match steps with
  | [] => Committed ()
  | s :: rest => s ;; all_of rest
  end.

(** PRIMARY KEY and UNIQUE: no value twice in the column. *)
Definition unique_key {A} `{EqDecision A} (name : string) (col : list A)
  : outcome unit :=
  require (bool_decide (NoDup col)) (unique_violation name).

(** REFERENCES: every value of the column is a key of the referenced table. *)
Definition references {A} `{EqDecision A} (name : string)
    (col : list A) (keys : list A) : outcome unit :=
  require (forallb (fun x => bool_decide (x ∈ keys)) col)
          (foreign_key_violation name).

(** The key and reference constraints of the five tables. *)
Definition integrity (db : database) : outcome unit :=
  let user_ids := users.id <$> tbl_users db in
  all_of [
    unique_key "role_permissions_pkey" (role_permissions.id <$> tbl_role_permissions db);
    unique_key "role_permissions_role_key" (role_permissions.role <$> tbl_role_permissions db);
    unique_key "regions_pkey" (regions.id <$> tbl_regions db);
    unique_key "regions_code_key" (regions.code <$> tbl_regions db);
    unique_key "users_pkey" user_ids;
    unique_key "users_username_key" (users.username <$> tbl_users db);
    unique_key "users_email_key" (users.email <$> tbl_users db);
    references "users_role_fkey"
      (users.role <$> tbl_users db)
      (role_permissions.role <$> tbl_role_permissions db);
    unique_key "permits_pkey" (permits.id <$> tbl_permits db);
    unique_key "permits_permit_number_key" (permits.permit_number <$> tbl_permits db);
    references "permits_closed_by_fkey"
      (omap permits.closed_by (tbl_permits db)) user_ids;
    references "permits_created_by_fkey"
      (permits.created_by <$> tbl_permits db) user_ids;
    unique_key "activity_logs_pkey" (activity_logs.id <$> tbl_activity_logs db);
    references "activity_logs_user_id_fkey"
      (activity_logs.user_id <$> tbl_activity_logs db) user_ids
  ].

(* ===================================================================== *)
(** ** Statements: the executor *)
(* ===================================================================== *)

(** What the statements need to know of a table. *)
Record table (R : Type) := Table {
  name : relname;
  rows : database → list R;
  with_rows : list R → database → database;
  policies : database → option uuid → command → list (policy R);
  checks : database → list (string * (R → sqlbool))
}.
Arguments name {R} _.
Arguments rows {R} _ _.
Arguments with_rows {R} _ _ _.
Arguments policies {R} _ _ _ _.
Arguments checks {R} _ _.

Definition t_users : table users.row := {|
  name := r_users;
  rows := tbl_users;
  with_rows := fun l db =>
    Database l (tbl_permits db) (tbl_activity_logs db)
             (tbl_role_permissions db) (tbl_regions db);
  policies := users_policies;
  checks := fun db => [("users_regions_check", users_regions_check db);
                       ("users_role_check", users_role_check)]
|}.

Definition t_permits : table permits.row := {|
  name := r_permits;
  rows := tbl_permits;
  with_rows := fun l db =>
    Database (tbl_users db) l (tbl_activity_logs db)
             (tbl_role_permissions db) (tbl_regions db);
  policies := permits_policies;
  checks := fun db => [("permits_region_check", permits_region_check db);
                       ("permits_request_type_check", permits_request_type_check)]
|}.

Definition t_activity_logs : table activity_logs.row := {|
  name := r_activity_logs;
  rows := tbl_activity_logs;
  with_rows := fun l db =>
    Database (tbl_users db) (tbl_permits db) l
             (tbl_role_permissions db) (tbl_regions db);
  policies := activity_logs_policies;
  checks := fun _ => []
|}.

Definition t_role_permissions : table role_permissions.row := {|
  name := r_role_permissions;
  rows := tbl_role_permissions;
  with_rows := fun l db =>
    Database (tbl_users db) (tbl_permits db) (tbl_activity_logs db)
             l (tbl_regions db);
  policies := role_permissions_policies;
  checks := fun _ => []
|}.

Definition t_regions : table regions.row := {|
  name := r_regions;
  rows := tbl_regions;
  with_rows := fun l db =>
    Database (tbl_users db) (tbl_permits db) (tbl_activity_logs db)
             (tbl_role_permissions db) l;
  policies := regions_policies;
  checks := fun _ => []
|}.

(** The statements as the executor runs them once the policies are added:
    rows are filtered and checked with the expressions of the policies, and
    a sub-query of an expression is answered from the rows of the table it
    names.  Whether a statement gets that far is for the rewriter to say,
    see [QueryRewrite] and [statement] below. *)
Section Statements.
Context {R : Type} (T : table R).
Variable db : database.
Variable uid : option uuid.

(** A row passes command [c]. *)
Definition permitted (c : command) (r : R) : bool :=
  any_policy (policies T db uid c) r.

(** The CHECK constraints of the table on one row. *)
Definition check_row (r : R) : outcome unit :=
  all_of ((fun c => require (check_passes (c.2 r)) (check_violation c.1))
            <$> checks T db).

(** The statement leaves the database in [db'] if its keys and references
    hold there. *)
Definition commit (db' : database) : outcome database :=
  integrity db' ;; Committed db'.

(** [SELECT * FROM T]: the rows that pass are returned, the others are
    left out without a word. *)
Definition select : list R :=
  List.filter (permitted SELECT) (rows T db).

(** A row that command [c] writes: the row-level check comes first, then
    the CHECK constraints. *)
Definition write_row (c : command) (new : R) : outcome unit :=
  require (permitted c new) insufficient_privilege ;;
  check_row new.

(** [INSERT INTO T VALUES new] *)
Definition insert (new : R) : outcome database :=
  write_row INSERT new ;;
  commit (with_rows T (rows T db ++ [new]) db).

(** The rows a statement with WHERE clause [cond] acts on. *)
Definition targeted (c : command) (cond : R → sqlbool) (r : R) : bool :=
  holds (cond r) && permitted c r.

(** [UPDATE T SET ... WHERE cond]: [set] computes the new row from the old
    one.  Rows that do not pass the policy are not touched; a new row that
    does not pass it, or violates a constraint, aborts the statement. *)
Definition update (cond : R → sqlbool) (set : R → R) : outcome database :=
  let news := set <$> List.filter (targeted UPDATE cond) (rows T db) in
  all_of (write_row UPDATE <$> news) ;;
  commit (with_rows T
            ((fun r => if targeted UPDATE cond r then set r else r)
               <$> rows T db) db).

(** [DELETE FROM T WHERE cond] *)
Definition delete (cond : R → sqlbool) : outcome database :=
  commit (with_rows T
            (List.filter (fun r => negb (targeted DELETE cond r)) (rows T db))
            db).
End Statements.

(* ===================================================================== *)
(** ** Statements: the rewriter and the session *)
(* ===================================================================== *)

(** The relations that the sub-queries of the policies of command [c] on
    [T] read. *)
Definition sublinks_of {R} (T : table R) (db : database) (uid : option uuid)
    (c : command) : list relname :=
  concat (sublinks <$> policies T db uid c).

(** A sub-query reads its relation with SELECT, so the SELECT policies of
    that relation are added to it, and with them their own sub-queries. *)
Definition subqueries (db : database) (uid : option uuid) (rel : relname)
  : list relname :=
  match rel with
  | r_users => sublinks_of t_users db uid SELECT
  | r_permits => sublinks_of t_permits db uid SELECT
  | r_activity_logs => sublinks_of t_activity_logs db uid SELECT
  | r_role_permissions => sublinks_of t_role_permissions db uid SELECT
  | r_regions => sublinks_of t_regions db uid SELECT
  end.

Definition relations : list relname :=
  [r_users; r_permits; r_activity_logs; r_role_permissions; r_regions].

(** [fireRIRrules] of the rewriter, as far as row security goes.  The
    policies of [rel] have just been added and [links] are the relations
    their sub-queries read.  Without sub-queries there is nothing to do.
    Otherwise [rel] must not be among [activeRIRs], the relations whose
    policies are being expanded further out: "infinite recursion detected in
    policy for relation".  Then each sub-query is rewritten in turn, with
    [rel] active.  [depth] is what is left of the stack. *)
Fixpoint fireRIRrules (db : database) (uid : option uuid) (depth : nat)
    (activeRIRs : list relname) (rel : relname) (links : list relname)
  : outcome unit :=
  match depth with
  | 0 => Aborted statement_too_complex
  | S depth' =>
      match links with
      | [] => Committed ()
      | _ =>
          if bool_decide (rel ∈ activeRIRs)
          then Aborted (invalid_object_definition rel)
          else all_of ((fun rel' =>
                          fireRIRrules db uid depth' (rel :: activeRIRs) rel'
                            (subqueries db uid rel'))
                         <$> links)
      end
  end.

(** The rewriter on a statement with command [c] on [T].  An active
    relation is refused, so the nesting is never deeper than there are
    relations. *)
Definition QueryRewrite {R} (T : table R) (db : database) (uid : option uuid)
    (c : command) : outcome unit :=
  fireRIRrules db uid (S (length relations)) [] (name T)
    (sublinks_of T db uid c).

(** Who runs a statement.  Row security is enabled on the five tables and
    not forced: it is not applied to the owner of the tables, who runs the
    migration, to a superuser or to a role with BYPASSRLS.  To any other
    role it applies, with [auth.uid()] the identity of the request. *)
Inductive session :=
| BypassRLS
| RowSecurity (uid : option uuid).

(** [T] without row security: every row passes. *)
Definition unrestricted {R} (T : table R) : table R := {|
  name := name T;
  rows := rows T;
  with_rows := with_rows T;
  policies := fun _ _ _ => [Policy (fun _ => Some true) []];
  checks := checks T
|}.

(** [T] for an UPDATE or DELETE that reads the rows it acts on (a WHERE or
    RETURNING clause that names a column): the SELECT policies are added to
    those of the command, for the rows found and for the rows written. *)
Definition reading {R} (T : table R) : table R := {|
  name := name T;
  rows := rows T;
  with_rows := with_rows T;
  policies := fun db uid c =>
    match c with
    | SELECT | INSERT => policies T db uid c
    | _ => [Policy (fun r => Some (any_policy (policies T db uid c) r
                                   && any_policy (policies T db uid SELECT) r))
                   (sublinks_of T db uid c ++ sublinks_of T db uid SELECT)]
    end;
  checks := checks T
|}.

(** A statement of a session: the rewriter, then the executor.  Without
    row security there is no policy to add and every row passes. *)
Module statement.
Section Statement.
Context {R : Type} (T : table R).
Variable db : database.

(** [SELECT * FROM T] *)
Definition select (s : session) : outcome (list R) :=
  match s with
  | BypassRLS => Committed (rows T db)
  | RowSecurity uid =>
      QueryRewrite T db uid SELECT ;; Committed (select T db uid)
  end.

(** [INSERT INTO T VALUES new], without RETURNING *)
Definition insert (s : session) (new : R) : outcome database :=
  match s with
  | BypassRLS => insert (unrestricted T) db None new
  | RowSecurity uid => QueryRewrite T db uid INSERT ;; insert T db uid new
  end.

(** The table as an UPDATE or DELETE of the session sees it. *)
Definition secured (s : session) (reads : bool) : table R :=
  match s with
  | BypassRLS => unrestricted T
  | RowSecurity _ => if reads then reading T else T
  end.

Definition auth_uid (s : session) : option uuid :=
  match s with
  | BypassRLS => None
  | RowSecurity uid => uid
  end.

(** [UPDATE T SET ... WHERE cond]; [reads] says whether the statement reads
    a column of [T], in its WHERE clause, in an expression of SET or in
    RETURNING. *)
Definition update (s : session) (reads : bool) (cond : R → sqlbool)
    (set : R → R) : outcome database :=
  QueryRewrite (secured s reads) db (auth_uid s) UPDATE ;;
  update (secured s reads) db (auth_uid s) cond set.

(** [DELETE FROM T WHERE cond] *)
Definition delete (s : session) (reads : bool) (cond : R → sqlbool)
  : outcome database :=
  QueryRewrite (secured s reads) db (auth_uid s) DELETE ;;
  delete (secured s reads) db (auth_uid s) cond.
End Statement.
End statement.

(* ===================================================================== *)
(** ** Seed data of the migration *)
(* ===================================================================== *)

(** [INSERT ... ON CONFLICT (key) ...]: a row whose key is taken is merged
    into the existing row by [resolve existing excluded], a new key is
    appended. *)
Definition insert_on_conflict {R K} `{EqDecision K} (key : R → K)
    (resolve : R → R → R) (tbl : list R) (excluded : R) : list R :=
  if bool_decide (key excluded ∈ key <$> tbl)
  then (fun r => if bool_decide (key r = key excluded)
                 then resolve r excluded else r) <$> tbl
  else tbl ++ [excluded].

(** [DO NOTHING] *)
Definition do_nothing {R} (existing excluded : R) : R := existing.

Definition json_flags (l : list (string * bool)) : jsonb :=
  JObject (list_to_map (prod_map id JBool <$> l)).

(** The VALUES of "Insert default role permissions". *)
Definition default_role_permissions : list (text * jsonb) := [
  ("admin", json_flags [
     ("canCreatePermits", true);
     ("canEditPermits", true);
     ("canDeletePermits", true);
     ("canClosePermits", true);
     ("canReopenPermits", true);
     ("canViewPermits", true);
     ("canExportPermits", true);
     ("canManageUsers", true);
     ("canViewStatistics", true);
     ("canViewActivityLog", true);
     ("canManagePermissions", true);
     ("canReopenAnyPermit", true)]);
  ("manager", json_flags [
     ("canCreatePermits", true);
     ("canEditPermits", true);
     ("canDeletePermits", false);
     ("canClosePermits", true);
     ("canReopenPermits", true);
     ("canViewPermits", true);
     ("canExportPermits", true);
     ("canManageUsers", false);
     ("canViewStatistics", true);
     ("canViewActivityLog", true);
     ("canManagePermissions", false);
     ("canReopenAnyPermit", true)]);
  ("security_officer", json_flags [
     ("canCreatePermits", false);
     ("canEditPermits", false);
     ("canDeletePermits", false);
     ("canClosePermits", true);
     ("canReopenPermits", true);
     ("canViewPermits", true);
     ("canExportPermits", false);
     ("canManageUsers", false);
     ("canViewStatistics", false);
     ("canViewActivityLog", true);
     ("canManagePermissions", false);
     ("canReopenAnyPermit", false)]);
  ("observer", json_flags [
     ("canCreatePermits", false);
     ("canEditPermits", false);
     ("canDeletePermits", false);
     ("canClosePermits", false);
     ("canReopenPermits", false);
     ("canViewPermits", true);
     ("canExportPermits", false);
     ("canManageUsers", false);
     ("canViewStatistics", false);
     ("canViewActivityLog", false);
     ("canManagePermissions", false);
     ("canReopenAnyPermit", false)])
].

(** The VALUES of "Insert valid regions". *)
Definition valid_regions : list (text * text * text) := [
  ("headquarters", "Headquarters", "المقر الرئيسي");
  ("riyadh", "Riyadh", "الرياض");
  ("qassim", "Al-Qassim", "القصيم");
  ("hail", "Hail", "حائل");
  ("dammam", "Dammam", "الدمام");
  ("ahsa", "Al-Ahsa", "الأحساء");
  ("jubail", "Jubail", "الجبيل");
  ("jouf", "Al-Jouf", "الجوف");
  ("northern_borders", "Northern Borders", "الحدود الشمالية");
  ("jeddah", "Jeddah", "جدة");
  ("makkah", "Makkah", "مكة");
  ("medina", "Medina", "المدينة");
  ("tabuk", "Tabuk", "تبوك");
  ("yanbu", "Yanbu", "ينبع");
  ("asir", "Asir", "عسير");
  ("taif", "Taif", "الطائف");
  ("baha", "Al-Baha", "الباحة");
  ("jizan", "Jizan", "جازان");
  ("najran", "Najran", "نجران")
].

Section Migration.
(** [gen_random_uuid()]: the n-th identifier drawn, and [now()]. *)
Variable gen_random_uuid : nat → uuid.
Variable now : timestamptz.

(** [role_permissions] is dropped and created anew, then the four rows are
    inserted with [ON CONFLICT (role) DO UPDATE SET permissions =
    EXCLUDED.permissions, updated_at = now()]. *)
Definition seed_role_permissions : list role_permissions.row :=
  foldl (insert_on_conflict role_permissions.role
           (fun r ex => role_permissions.mk (role_permissions.id r)
                          (role_permissions.role r)
                          (role_permissions.permissions ex) (Some now)))
        []
        (imap (fun i v => role_permissions.mk (gen_random_uuid i) v.1 v.2 (Some now))
              default_role_permissions).

(** [regions]: [ON CONFLICT (code) DO NOTHING]. *)
Definition seed_regions : list regions.row :=
  foldl (insert_on_conflict regions.code do_nothing) []
        (imap (fun i v => regions.mk (gen_random_uuid (4 + i)) v.1.1 v.1.2 v.2 (Some now))
              valid_regions).

(** "Insert default admin user" *)
Definition default_admin : users.row := {|
  users.id := gen_random_uuid 23;
  users.username := "admin";
  users.password := "$2b$12$LQv3c1yqBWVHxkd0LHAkCOYz6TtxMQJqhN8/LewdBPj/RK.s5uO.G";
  users.email := "admin@example.com";
  users.first_name := "System";
  users.last_name := "Administrator";
  users.region := Some <$>
    ["headquarters"; "riyadh"; "dammam"; "hail"; "jubail"; "jeddah"; "tabuk";
     "taif"; "baha"; "yanbu"; "makkah"; "jouf"; "qassim"; "ahsa";
     "northern_borders"; "medina"; "asir"; "jizan"; "najran"];
  users.role := "admin";
  users.permissions := None;
  users.created_at := Some now;
  users.last_login := None
|}.

(** The database the migration leaves. *)
Definition migrated : database := {|
  tbl_users := [default_admin];
  tbl_permits := [];
  tbl_activity_logs := [];
  tbl_role_permissions := seed_role_permissions;
  tbl_regions := seed_regions
|}.
End Migration.

(** The twelve capabilities of a role's vector. *)
Definition capabilities : list string := [
  "canCreatePermits"; "canEditPermits"; "canDeletePermits"; "canClosePermits";
  "canReopenPermits"; "canViewPermits"; "canExportPermits"; "canManageUsers";
  "canViewStatistics"; "canViewActivityLog"; "canManagePermissions";
  "canReopenAnyPermit"
].

(* ===================================================================== *)
(** ** The reopen of a closed permit *)
(* ===================================================================== *)




(** Modelled from the spec: what the reopen transition writes, the SET
    clause of its UPDATE (section 8: "yields closed_at=null, closed_by=null
    again"; the name of the closer is not kept either). *)
Definition reopened (p : permits.row) : permits.row := {|
  permits.id := permits.id p;
  permits.permit_number := permits.permit_number p;
  permits.date := permits.date p;
  permits.region := permits.region p;
  permits.location := permits.location p;
  permits.carrier_name := permits.carrier_name p;
  permits.carrier_id := permits.carrier_id p;
  permits.request_type := permits.request_type p;
  permits.vehicle_plate := permits.vehicle_plate p;
  permits.materials := permits.materials p;
  permits.closed_by := None;
  permits.closed_at := None;
  permits.closed_by_name := None;
  permits.can_reopen := permits.can_reopen p;
  permits.created_by := permits.created_by p;
  permits.created_at := permits.created_at p
|}.

(* ===================================================================== *)
(** ** [toSnakeCase] of the [usePermits] hook *)
(* ===================================================================== *)

(** What an object inherits from: [Object.prototype], as every object
    literal and every object of [JSON.parse] does, nothing ([null]), or
    another object. *)
Inductive prototype (V : Type) :=
| ObjectPrototype
| NullPrototype
| Prototype (o : V).
Arguments ObjectPrototype {V}.
Arguments NullPrototype {V}.
Arguments Prototype {V} o.

(** JavaScript values as far as JSON goes.  A string is its sequence of
    bytes in UTF-8; an object is its prototype and the list of its own
    properties in the order [Object.keys] gives them. *)
#[warnings="-register-all"]
Inductive value :=
| VUndefined
| VNull
| VBoolean (b : bool)
| VNumber (n : float)
| VString (s : string)
| VArray (elems : list value)
| VObject (proto : prototype value) (props : list (string * value)).

(** The character class [[A-Z]]. *)
Definition is_upper (c : ascii) : bool :=
  (65 <=? nat_of_ascii c)%nat && (nat_of_ascii c <=? 90)%nat.

(** [letter.toLowerCase()] for a letter of [[A-Z]]. *)
Definition toLowerCase (letter : ascii) : ascii :=
  ascii_of_nat (nat_of_ascii letter + 32).

(** [key.replace(/[A-Z]/g, letter => `_${letter.toLowerCase()}`)] *)
Fixpoint snakeKey (key : string) : string :=
  match key with
  | EmptyString => EmptyString
  | String c rest =>
      if is_upper c
      then String "_" (String (toLowerCase c) (snakeKey rest))
      else String c (snakeKey rest)
  end.

(** The value of a string of decimal digits, after the digits read so far. *)
Fixpoint parse_digits (s : string) (acc : N) : option N :=
  match s with
  | EmptyString => Some acc
  | String c rest =>
      let d := N_of_ascii c in
      if (48 <=? d)%N && (d <=? 57)%N
      then parse_digits rest (acc * 10 + (d - 48))%N
      else None
  end.

(** A key is an array index when it is the canonical decimal form of an
    integer from 0 to 2^32 - 2. *)
Definition array_index (k : string) : option N :=
  match k with
  | EmptyString => None
  | String "0" EmptyString => Some 0%N
  | String "0" _ => None
  | _ =>
      match parse_digits k 0 with
      | Some n => if (n <? 4294967295)%N then Some n else None
      | None => None
      end
  end.

(** A new array-index key goes before the first key that is not an array
    index or is a greater one: index keys come first, in ascending order. *)
Fixpoint insert_index (n : N) (k : string) (v : value)
    (props : list (string * value)) : list (string * value) :=
  match props with
  | [] => [(k, v)]
  | (k', v') :: rest =>
      match array_index k' with
      | Some n' =>
          if (n <? n')%N then (k, v) :: props
          else (k', v') :: insert_index n k v rest
      | None => (k, v) :: props
      end
  end.

(** A new own property: an array index in its place, a string key after all
    others. *)
Definition define (k : string) (v : value) (props : list (string * value))
  : list (string * value) :=
  match array_index k with
  | Some n => insert_index n k v props
  | None => props ++ [(k, v)]
  end.

(** An own property that exists keeps its place and takes the new value. *)
Fixpoint overwrite (k : string) (v : value) (props : list (string * value))
  : list (string * value) :=
  match props with
  | [] => []
  | (k', v') :: rest =>
      if bool_decide (k' = k) then (k, v) :: rest
      else (k', v') :: overwrite k v rest
  end.

(** Looking [__proto__] up from the object [o] along its prototypes ends at
    the accessor of [Object.prototype], unless an object on the way has an
    own property of that name or the chain ends in [null] before.  An array
    inherits from [Array.prototype] and then [Object.prototype]. *)
Fixpoint finds_setter (o : value) : bool :=
  match o with
  | VObject proto props =>
      if bool_decide ("__proto__" ∈ props.*1) then false
      else match proto with
           | ObjectPrototype => true
           | NullPrototype => false
           | Prototype o' => finds_setter o'
           end
  | _ => true
  end.

Definition inherits_setter (proto : prototype value) : bool :=
  match proto with
  | ObjectPrototype => true
  | NullPrototype => false
  | Prototype o => finds_setter o
  end.

(** The setter of [Object.prototype.__proto__]: an object or [null] becomes
    the prototype, any other value is ignored. *)
Definition set_prototype (proto : prototype value) (v : value)
  : prototype value :=
  match v with
  | VNull => NullPrototype
  | VArray _ | VObject _ _ => Prototype v
  | _ => proto
  end.

(** [acc[k] = v] on the object [acc] with prototype [acc.1] and own
    properties [acc.2].  An own property is overwritten where it is.
    Otherwise the assignment of [__proto__] goes to the inherited setter, if
    there is one, and makes no own property; any other assignment makes a
    new own property. *)
Definition obj_set (acc : prototype value * list (string * value))
    (k : string) (v : value) : prototype value * list (string * value) :=
  if bool_decide (k ∈ acc.2.*1) then (acc.1, overwrite k v acc.2)
  else if bool_decide (k = "__proto__") && inherits_setter acc.1
       then (set_prototype acc.1 v, acc.2)
       else (acc.1, define k v acc.2).

(** [toSnakeCase]: the reduction starts from [{}]. *)
Fixpoint toSnakeCase (obj : value) : value :=
  match obj with
  | VArray elems => VArray (map toSnakeCase elems)
  | VObject _ props =>
      let acc :=
        fold_left
          (fun acc kv => obj_set acc (snakeKey kv.1) (toSnakeCase kv.2))
          props (ObjectPrototype, [])
      in VObject acc.1 acc.2
  | _ => obj
  end.

(** No key of an object of [v], at any depth, is [__proto__] after the
    conversion. *)
Fixpoint proto_free (v : value) : bool :=
  match v with
  | VArray elems => forallb proto_free elems
  | VObject _ props =>
      forallb (fun kv => negb (bool_decide (snakeKey kv.1 = "__proto__"))
                         && proto_free kv.2) props
  | _ => true
  end.

(** A value of JSON: every object in it inherits from [Object.prototype]. *)
Fixpoint json_like (v : value) : bool :=
  match v with
  | VArray elems => forallb json_like elems
  | VObject ObjectPrototype props => forallb (fun kv => json_like kv.2) props
  | VObject _ _ => false
  | _ => true
  end.

(* ===================================================================== *)
(** ** The state a statement leaves, and a sample database *)
(* ===================================================================== *)

(** An aborted statement leaves the database as it was. *)
Definition after {A} (before : A) (o : outcome A) : A :=
  match o with
  | Committed a => a
  | Aborted _ => before
  end.

(** The primary key of [users], which lets [id = auth.uid()] select one row. *)
Definition users_pkey (db : database) : Prop :=
  NoDup (users.id <$> tbl_users db).

(** Every code of a region array is the code of a row of [regions]. *)
Definition registered (db : database) (codes : list (option text)) : Prop :=
  ∀ c, c ∈ codes → ∃ r, r ∈ tbl_regions db ∧ c = Some (regions.code r).

(** [with_rows] replaces the rows that [rows] reads. *)
Definition lawful {R} (T : table R) : Prop :=
  (∀ db l, rows T (with_rows T l db) = l)
  ∧ (∀ db, with_rows T (rows T db) db = db).

(** No permit and no log entry refers to the user. *)
Definition unreferenced (db : database) (id : uuid) : Prop :=
  (id ∉ omap permits.closed_by (tbl_permits db))
  ∧ (id ∉ permits.created_by <$> tbl_permits db)
  ∧ (id ∉ activity_logs.user_id <$> tbl_activity_logs db).

(** The capability vector of a role in words: all for admin; all but
    delete, manage-users and manage-permissions for manager; close, reopen,
    view and view-activity-log for security_officer; view for observer. *)
Definition vector_in_words (role cap : string) : bool :=
  if bool_decide (role = "admin") then true
  else if bool_decide (role = "manager") then
    negb (bool_decide
            (cap ∈ ["canDeletePermits"; "canManageUsers"; "canManagePermissions"]))
  else if bool_decide (role = "security_officer") then
    bool_decide (cap ∈ ["canClosePermits"; "canReopenPermits"; "canViewPermits";
                        "canViewActivityLog"])
  else bool_decide (cap = "canViewPermits").

Module sample.
Local Open Scope N_scope.

Definition ids (n : nat) : uuid := N.of_nat (1000 + n)%nat.

Definition admin : users.row := default_admin ids 0%Z.

Definition manager : users.row := {|
  users.id := 1; users.username := "mona"; users.password := "$2b$12$m";
  users.email := "mona@example.com"; users.first_name := "Mona";
  users.last_name := "M"; users.region := [Some "riyadh"];
  users.role := "manager"; users.permissions := None;
  users.created_at := Some 0%Z; users.last_login := None
|}.

Definition officer : users.row := {|
  users.id := 2; users.username := "omar"; users.password := "$2b$12$o";
  users.email := "omar@example.com"; users.first_name := "Omar";
  users.last_name := "O"; users.region := [Some "jeddah"];
  users.role := "security_officer"; users.permissions := None;
  users.created_at := Some 0%Z; users.last_login := None
|}.

Definition observer : users.row := {|
  users.id := 3; users.username := "badr"; users.password := "$2b$12$b";
  users.email := "badr@example.com"; users.first_name := "Badr";
  users.last_name := "B"; users.region := [Some "riyadh"; Some "hail"];
  users.role := "observer"; users.permissions := None;
  users.created_at := Some 0%Z; users.last_login := None
|}.

(** A user that nothing refers to. *)
Definition guest : users.row := {|
  users.id := 4; users.username := "ghada"; users.password := "$2b$12$g";
  users.email := "ghada@example.com"; users.first_name := "Ghada";
  users.last_name := "G"; users.region := [Some "headquarters"];
  users.role := "observer"; users.permissions := None;
  users.created_at := Some 0%Z; users.last_login := None
|}.

(** A user scoped to no region at all. *)
Definition nowhere : users.row := {|
  users.id := 5; users.username := "nora"; users.password := "$2b$12$n";
  users.email := "nora@example.com"; users.first_name := "Nora";
  users.last_name := "N"; users.region := [];
  users.role := "observer"; users.permissions := None;
  users.created_at := Some 0%Z; users.last_login := None
|}.

(** A user scoped to a region that is not in the registry. *)
Definition martian : users.row := {|
  users.id := 6; users.username := "mars"; users.password := "$2b$12$x";
  users.email := "mars@example.com"; users.first_name := "Mars";
  users.last_name := "X"; users.region := [Some "riyadh"; Some "mars"];
  users.role := "observer"; users.permissions := None;
  users.created_at := Some 0%Z; users.last_login := None
|}.

Definition open_permit : permits.row := {|
  permits.id := 10; permits.permit_number := "MHV2025000001";
  permits.date := 20000%Z; permits.region := "riyadh";
  permits.location := "Gate 1"; permits.carrier_name := "Carrier";
  permits.carrier_id := "1010101010";
  permits.request_type := "material_entrance";
  permits.vehicle_plate := "ABC 1234"; permits.materials := JArray [];
  permits.closed_by := None; permits.closed_at := None;
  permits.closed_by_name := None; permits.can_reopen := Some true;
  permits.created_by := 1; permits.created_at := Some 0%Z
|}.

(** A permit of Jeddah, closed by the user who is an observer now. *)
Definition closed_permit : permits.row := {|
  permits.id := 11; permits.permit_number := "MHV2025000002";
  permits.date := 20001%Z; permits.region := "jeddah";
  permits.location := "Gate 2"; permits.carrier_name := "Carrier";
  permits.carrier_id := "2020202020";
  permits.request_type := "heavy_vehicle_exit";
  permits.vehicle_plate := "XYZ 9876"; permits.materials := JArray [];
  permits.closed_by := Some 3; permits.closed_at := Some 7%Z;
  permits.closed_by_name := Some "Badr B"; permits.can_reopen := Some true;
  permits.created_by := 1; permits.created_at := Some 0%Z
|}.

Definition log_entry (user_id : uuid) : activity_logs.row := {|
  activity_logs.id := 20; activity_logs.user_id := user_id;
  activity_logs.name := "Someone"; activity_logs.username := "someone";
  activity_logs.action := "login"; activity_logs.details := "logged in";
  activity_logs.timestamp := Some 1%Z; activity_logs.ip := None;
  activity_logs.user_agent := None
|}.

(** The data of a new permit as the form hands it to [addPermit]. *)
Definition permit_data : value :=
  VObject ObjectPrototype [
    ("permitNumber", VString "MHV2025000003");
    ("date", VString "2025-09-11");
    ("region", VString "riyadh");
    ("location", VString "Gate 3");
    ("carrierName", VString "Carrier");
    ("carrierId", VString "3030303030");
    ("requestType", VString "material_entrance");
    ("vehiclePlate", VString "KSA 5555");
    ("materials", VArray [
       VObject ObjectPrototype [
         ("id", VString "m1");
         ("description", VString "Steel pipes");
         ("serialNumber", VString "SN-001")]])
  ].

(** An object as [JSON.parse] makes it of
    [{"__proto__": null, "_Proto__": 1}]. *)
Definition proto_data : value :=
  VObject ObjectPrototype [("__proto__", VNull); ("_Proto__", VNumber 1)].

(** The migrated database with four more users and two permits. *)
Definition db : database := {|
  tbl_users := [admin; manager; officer; observer; guest];
  tbl_permits := [open_permit; closed_permit];
  tbl_activity_logs := [];
  tbl_role_permissions := seed_role_permissions ids 0%Z;
  tbl_regions := seed_regions ids 0%Z
|}.
End sample.

(** [P] holds of the object that is the prototype, if there is one. *)
Definition on_prototype (P : value → Prop) (proto : prototype value) : Prop :=
  match proto with
  | Prototype o => P o
  | _ => True
  end.

(** An induction principle for [value] that reaches the values inside
    arrays, objects and prototypes. *)
Definition value_ind' (P : value → Prop)
    (Hundefined : P VUndefined) (Hnull : P VNull)
    (Hboolean : ∀ b, P (VBoolean b)) (Hnumber : ∀ n, P (VNumber n))
    (Hstring : ∀ s, P (VString s))
    (Harray : ∀ elems, Forall P elems → P (VArray elems))
    (Hobject : ∀ proto props,
       on_prototype P proto →
       Forall (fun kv => P kv.2) props → P (VObject proto props))
  : ∀ v, P v :=
  fix go (v : value) : P v :=
    match v with
    | VUndefined => Hundefined
    | VNull => Hnull
    | VBoolean b => Hboolean b
    | VNumber n => Hnumber n
    | VString s => Hstring s
    | VArray elems =>
        Harray elems
          ((fix all (l : list value) : Forall P l :=
              match l with
              | [] => List.Forall_nil P
              | x :: l' => @List.Forall_cons _ P x l' (go x) (all l')
              end) elems)
    | VObject proto props =>
        Hobject proto props
          (match proto return on_prototype P proto with
           | Prototype o => go o
           | ObjectPrototype => I
           | NullPrototype => I
           end)
          ((fix all (l : list (string * value)) : Forall (fun kv => P kv.2) l :=
              match l with
              | [] => List.Forall_nil _
              | kv :: l' =>
                  @List.Forall_cons _ (fun kv => P kv.2) kv l' (go kv.2) (all l')
              end) props)
    end.

(** A key that [snakeKey] leaves alone. *)
Definition lower_key (k : string) : Prop := snakeKey k = k.

(** The order of own keys: after an array index come greater indices or
    other keys, after another key no array index. *)
Definition precedes (k k' : string) : Prop :=
  match array_index k, array_index k' with
  | Some n, Some n' => (n <= n')%N
  | Some _, None => True
  | None, Some _ => False
  | None, None => True
  end.

Fixpoint key_order (ks : list string) : Prop :=
  match ks with
  | [] => True
  | k :: rest => (∀ k', k' ∈ rest → precedes k k') ∧ key_order rest
  end.

(** The own properties an object built by [toSnakeCase] from a value
    without [__proto__] keys has. *)
Definition settled_keys (ks : list string) : Prop :=
  NoDup ks ∧ key_order ks ∧ ("__proto__" ∉ ks) ∧ Forall lower_key ks.

(** A value on which [toSnakeCase] has nothing left to do. *)
#[warnings="-register-all"]
Inductive settled : value → Prop :=
| settled_undefined : settled VUndefined
| settled_null : settled VNull
| settled_boolean b : settled (VBoolean b)
| settled_number n : settled (VNumber n)
| settled_string s : settled (VString s)
| settled_array elems : Forall settled elems → settled (VArray elems)
| settled_object props :
    settled_keys props.*1 → Forall (fun kv => settled kv.2) props →
    settled (VObject ObjectPrototype props).

(** The properties of an object under construction. *)
Definition settled_props (props : list (string * value)) : Prop :=
  settled_keys props.*1 ∧ Forall (fun kv => settled kv.2) props.

(* ===================================================================== *)
(** ** The statistics views *)
(* ===================================================================== *)

(** [CASE WHEN cond THEN v END]: NULL when the condition is not true. *)
Definition sql_case {A} (cond : sqlbool) (v : A) : option A :=
  if holds cond then Some v else None.

(** [COUNT(expr)] counts the rows on which [expr] is not NULL. *)
Definition sql_count {R A} (expr : R → option A) (rs : list R) : nat :=
  length (List.filter (fun r => bool_decide (is_Some (expr r))) rs).

(** [MAX(expr)] passes over NULL and is NULL when no row has a value. *)
Definition sql_max {R} (expr : R → option Z) (rs : list R) : option Z :=
  foldr (fun r acc =>
           match expr r, acc with
           | Some a, Some b => Some (Z.max a b)
           | Some a, None => Some a
           | None, _ => acc
           end) None rs.

(** [GROUP BY key]: one group for every value of the key, with the rows
    that have it.  SQL leaves the order of the groups open; here it is the
    order in which the keys first appear. *)
Definition group_by {R K} `{EqDecision K} (key : R → K) (rs : list R)
  : list (K * list R) :=
  (fun k => (k, List.filter (fun r => bool_decide (key r = k)) rs))
    <$> remove_dups (key <$> rs).

Module user_statistics.
Record row := mk {
  role : text;
  user_count : nat;
  active_users : nat;
  last_activity : option timestamptz
}.

(** The view [user_statistics]. *)
Definition view (db : database) : list row :=
  (fun g =>
     mk g.1
        (length g.2)
        (sql_count (fun u =>
           sql_case (sql_not (sql_is_null (users.last_login u))) 1%Z) g.2)
        (sql_max users.last_login g.2))
    <$> group_by users.role (tbl_users db).
End user_statistics.

Module permit_statistics.
Record row := mk {
  region : text;
  request_type : text;
  total_permits : nat;
  active_permits : nat;
  closed_permits : nat
}.

(** The view [permit_statistics]. *)
Definition view (db : database) : list row :=
  (fun g =>
     mk g.1.1 g.1.2
        (length g.2)
        (sql_count (fun p =>
           sql_case (sql_is_null (permits.closed_at p)) 1%Z) g.2)
        (sql_count (fun p =>
           sql_case (sql_not (sql_is_null (permits.closed_at p))) 1%Z) g.2))
    <$> group_by (fun p => (permits.region p, permits.request_type p))
          (tbl_permits db).
End permit_statistics.

(* ===================================================================== *)
(** ** The list of permits of the [usePermits] hook *)
(* ===================================================================== *)

(** [n.toString()] of a non-negative integer. *)
Definition toString (n : N) : string :=
  NilEmpty.string_of_uint (N.to_uint n).

Fixpoint pad (n : nat) (c : ascii) (s : string) : string :=
  match n with
  | O => s
  | S n' => String c (pad n' c s)
  end.

(** [s.padStart(targetLength, c)] for a padding of one character: a string
    that is long enough is returned as it is. *)
Definition padStart (targetLength : nat) (c : ascii) (s : string) : string :=
  pad (targetLength - String.length s) c s.

(** The number that a string of digits writes, leading zeros or not. *)
Definition number_of (s : string) : option N :=
  N.of_uint <$> NilEmpty.uint_of_string s.

Section usePermits.
(** The type [Permit] is declared in [../types], which is not among the
    sources; the hook reads its [id] only. *)
Variable Permit : Type.
Variable permit_id : Permit → string.

(** [addPermit]: [setPermits(prev => [newPermit, ...prev])] with the permit
    the server answered. *)
Definition addPermit (newPermit : Permit) (prev : list Permit) : list Permit :=
  newPermit :: prev.

(** [updatePermit], and [closePermit] and [reopenPermit] alike:
    [prev.map(permit => permit.id === permitId ? updatedPermit : permit)]. *)
Definition updatePermit (permitId : string) (updatedPermit : Permit)
    (prev : list Permit) : list Permit :=
  (fun permit =>
     if bool_decide (permit_id permit = permitId) then updatedPermit else permit)
    <$> prev.

(** [deletePermit]: [prev.filter(permit => permit.id !== permitId)]. *)
Definition deletePermit (permitId : string) (prev : list Permit) : list Permit :=
  List.filter (fun permit => negb (bool_decide (permit_id permit = permitId)))
    prev.

(** [generatePermitNumber], in the year [year] that [new
    Date().getFullYear()] gives. *)
Definition generatePermitNumber (year : N) (permits : list Permit) : string :=
  String.append "MHV"
    (String.append (toString year)
       (padStart 6 "0" (toString (N.of_nat (length permits + 1))))).
End usePermits.

(** Own property lookup [props[k]] on the list of own properties. *)
Definition obj_get (props : list (string * value)) (k : string) : option value :=
  snd <$> List.find (fun kv => bool_decide (kv.1 = k)) props.

(** A key with a letter of [[A-Z]]. *)
Fixpoint has_upper (k : string) : bool :=
  match k with
  | EmptyString => false
  | String c rest => is_upper c || has_upper rest
  end.

(** [f] holds of every own key of every object in [v], the objects that
    serve as prototypes included. *)
Fixpoint all_keys (f : string → bool) (v : value) : bool :=
  match v with
  | VArray elems => forallb (all_keys f) elems
  | VObject proto props =>
      match proto with
      | Prototype o => all_keys f o
      | _ => true
      end
      && forallb (fun kv => f kv.1 && all_keys f kv.2) props
  | _ => true
  end.

(** The properties of the source with their keys and values converted. *)
Definition converted (props : list (string * value)) : list (string * value) :=
  (fun kv => (snakeKey kv.1, toSnakeCase kv.2)) <$> props.

(** The object under construction, its prototype and its own properties,
    has keys of [f] only. *)
Definition keys_in (f : string → bool)
    (acc : prototype value * list (string * value)) : Prop :=
  on_prototype (fun o => all_keys f o = true) acc.1
  ∧ Forall (fun kv => f kv.1 = true ∧ all_keys f kv.2 = true) acc.2.

(* ===================================================================== *)
(** ** The HTTP client of [services/api.ts] *)
(* ===================================================================== *)

Module api.
(** [import.meta.env] as far as the client reads it. *)
Record env := Env {
  DEV : bool;
  VITE_API_URL : option string
}.

(** A string is truthy when it is there and not empty. *)
Definition truthy (s : option string) : bool :=
  match s with
  | Some (String _ _) => true
  | _ => false
  end.

(** [getApiBaseUrl] *)
Definition getApiBaseUrl (e : env) : string :=
  if DEV e then "/api"
  else match VITE_API_URL e with
       | Some (String c s) => String c s
       | _ => "/api"
       end.

(** What the interceptors touch of the browser. *)
Record browser := Browser {
  localStorage : gmap string string;
  location_href : string
}.

(** The request interceptor on the headers of a request: "Add auth token
    to requests". *)
Definition request_interceptor (b : browser) (headers : gmap string string)
  : gmap string string :=
  if truthy (localStorage b !! "authToken")
  then <["Authorization" := String.append "Bearer "
                              (default EmptyString (localStorage b !! "authToken"))]>
         headers
  else headers.

(** The error branch of the response interceptor, for an error with the
    status of its response, if it has one: "Handle auth errors". *)
Definition response_error_interceptor (status : option N) (b : browser)
  : browser :=
  if bool_decide (status = Some 401%N)
  then {| localStorage :=
            base.delete "currentUser"
              (base.delete "authToken" (localStorage b));
          location_href := "/" |}
  else b.
End api.

(* ===================================================================== *)
(** ** More sample data *)
(* ===================================================================== *)

Module cases.
Local Open Scope N_scope.

(** An assignment that closes a permit: it sets the three columns of the
    closer. *)
Definition close (now : timestamptz) (closer : users.row) (p : permits.row)
  : permits.row := {|
  permits.id := permits.id p;
  permits.permit_number := permits.permit_number p;
  permits.date := permits.date p;
  permits.region := permits.region p;
  permits.location := permits.location p;
  permits.carrier_name := permits.carrier_name p;
  permits.carrier_id := permits.carrier_id p;
  permits.request_type := permits.request_type p;
  permits.vehicle_plate := permits.vehicle_plate p;
  permits.materials := permits.materials p;
  permits.closed_by := Some (users.id closer);
  permits.closed_at := Some now;
  permits.closed_by_name :=
    Some (String.append (users.first_name closer)
            (String.append " " (users.last_name closer)));
  permits.can_reopen := permits.can_reopen p;
  permits.created_by := permits.created_by p;
  permits.created_at := permits.created_at p
|}.

(** An assignment that moves a permit to another region. *)
Definition move (region : text) (p : permits.row) : permits.row := {|
  permits.id := permits.id p;
  permits.permit_number := permits.permit_number p;
  permits.date := permits.date p;
  permits.region := region;
  permits.location := permits.location p;
  permits.carrier_name := permits.carrier_name p;
  permits.carrier_id := permits.carrier_id p;
  permits.request_type := permits.request_type p;
  permits.vehicle_plate := permits.vehicle_plate p;
  permits.materials := permits.materials p;
  permits.closed_by := permits.closed_by p;
  permits.closed_at := permits.closed_at p;
  permits.closed_by_name := permits.closed_by_name p;
  permits.can_reopen := permits.can_reopen p;
  permits.created_by := permits.created_by p;
  permits.created_at := permits.created_at p
|}.


(** A user with a role outside the four. *)
Definition auditor : users.row := {|
  users.id := 7; users.username := "aud"; users.password := "$2b$12$a";
  users.email := "aud@example.com"; users.first_name := "Aud";
  users.last_name := "A"; users.region := [Some "headquarters"];
  users.role := "auditor"; users.permissions := None;
  users.created_at := Some 0%Z; users.last_login := None
|}.

(** A log entry of the officer. *)
Definition officer_log : activity_logs.row := sample.log_entry 2.

(** The sample database with one log entry. *)
Definition logged : database :=
  with_rows t_activity_logs [officer_log] sample.db.
End cases.

(* ===================================================================== *)
(** ** Properties of the SQL operators *)
(* ===================================================================== *)

(** Closed decidable facts are settled by evaluation. *)
Ltac by_evaluation := apply (bool_decide_unpack _); vm_compute; exact I.

(** Membership in a list that is written out. *)
Ltac in_list :=
  cbn; repeat first [apply list_elem_of_here | apply list_elem_of_further].

Lemma holds_and (a b : sqlbool) : holds (sql_and a b) = holds a && holds b.
Proof. by destruct a as [[]|], b as [[]|]. Qed.

Lemma holds_or (a b : sqlbool) : holds (sql_or a b) = holds a || holds b.
Proof. by destruct a as [[]|], b as [[]|]. Qed.

Lemma holds_eq {A} `{EqDecision A} (x y : A) :
  holds (sql_eq (Some x) (Some y)) = bool_decide (x = y).
Proof. simpl. by destruct (bool_decide (x = y)). Qed.

Lemma holds_eq_iff {A} `{EqDecision A} (a b : option A) :
  holds (sql_eq a b) = true ↔ ∃ x, a = Some x ∧ b = Some x.
Proof.
  destruct a as [x|], b as [y|]; simpl; try (split; [done | by intros (? & ? & ?)]).
  destruct (bool_decide_reflect (x = y)) as [->|Hne]; split; try done.
  - by exists y.
  - intros (z & [= ->] & [= ->]). by destruct Hne.
Qed.

Lemma holds_ne_self {A} `{EqDecision A} (x : A) (b : option A) :
  b = Some x → holds (sql_ne (Some x) b) = false.
Proof. intros ->. unfold sql_ne. simpl. by rewrite bool_decide_true. Qed.

Lemma holds_ne {A} `{EqDecision A} (x y : A) :
  x ≠ y → holds (sql_ne (Some x) (Some y)) = true.
Proof. intros Hne. unfold sql_ne. simpl. by rewrite bool_decide_false. Qed.

Lemma sql_in_not_null {A} `{EqDecision A} (x : A) (vs : list A) :
  sql_in (Some x) vs = Some (bool_decide (x ∈ vs)).
Proof.
  unfold sql_in. induction vs as [|v vs IH]; cbn [foldr].
  - symmetry. f_equal; try apply bool_decide_eq_false, not_elem_of_nil.
  - rewrite IH. unfold sql_eq.
    destruct (bool_decide_reflect (x = v)) as [->|Hne]; cbn [sql_or].
    + rewrite (bool_decide_eq_true_2 (v ∈ v :: vs)) by left.
      by destruct (bool_decide (v ∈ vs)).
    + destruct (bool_decide_reflect (x ∈ vs)) as [Hin|Hin].
      * rewrite (bool_decide_eq_true_2 (x ∈ v :: vs)); [done|]. by right.
      * rewrite (bool_decide_eq_false_2 (x ∈ v :: vs)); [done|].
        rewrite elem_of_cons. by intros [?|?].
Qed.

Lemma holds_in {A} `{EqDecision A} (x : A) (vs : list A) :
  holds (sql_in (Some x) vs) = bool_decide (x ∈ vs).
Proof. rewrite sql_in_not_null. cbn. by destruct (bool_decide _). Qed.

Lemma holds_contains_one {A} `{EqDecision A} (a : list (option A)) (x : A) :
  holds (array_contains a [Some x]) = bool_decide (Some x ∈ a).
Proof. simpl. by destruct (bool_decide (Some x ∈ a)). Qed.

Lemma holds_exists {R} (tbl : list R) (cond : R → sqlbool) :
  holds (sql_exists tbl cond) = existsb (fun r => holds (cond r)) tbl.
Proof. unfold sql_exists. simpl. by destruct (existsb _ _). Qed.

Lemma existsb_elem_of {R} (f : R → bool) (l : list R) :
  existsb f l = true ↔ ∃ r, r ∈ l ∧ f r = true.
Proof.
  rewrite existsb_exists. split; intros (r & Hr & Hf); exists r;
    by rewrite list_elem_of_In in *.
Qed.

(** With the primary key, [id = auth.uid()] selects the caller's row and no
    other: an [EXISTS] over [users] is its condition on that row. *)
Lemma exists_caller (db : database) (u : users.row)
    (cond : users.row → sqlbool) :
  users_pkey db → u ∈ tbl_users db →
  holds (sql_exists (tbl_users db) (fun u' =>
           sql_and (sql_eq (Some (users.id u')) (Some (users.id u))) (cond u')))
  = holds (cond u).
Proof.
  intros Hkey Hu. rewrite holds_exists.
  destruct (holds (cond u)) eqn:Hc.
  - apply existsb_elem_of. exists u. split; [done|].
    by rewrite holds_and, holds_eq, bool_decide_true, Hc.
  - apply not_true_is_false. rewrite existsb_elem_of.
    intros (u' & Hu' & Hh). rewrite holds_and, holds_eq in Hh.
    apply andb_true_iff in Hh as [Hid Hc'].
    apply bool_decide_eq_true in Hid.
    assert (u' = u) as ->; [|congruence].
    unfold users_pkey in Hkey. clear Hc Hc'.
    induction (tbl_users db) as [|x l IH]; [by apply elem_of_nil in Hu|].
    rewrite fmap_cons in Hkey. apply NoDup_cons in Hkey as [Hx Hl].
    apply elem_of_cons in Hu as [->|Hu], Hu' as [->|Hu']; auto.
    + destruct Hx. rewrite <- Hid. by apply list_elem_of_fmap_2.
    + destruct Hx. rewrite Hid. by apply list_elem_of_fmap_2.
Qed.


Lemma any_policy_one {R} (p : R → sqlbool) (l : list relname) (r : R) :
  any_policy [Policy p l] r = holds (p r).
Proof. unfold any_policy. simpl. by rewrite orb_false_r. Qed.

(* ===================================================================== *)
(** ** The rewriter *)
(* ===================================================================== *)

(** The SELECT policies of [users] have a sub-query on [users]. *)
Lemma subqueries_users (db : database) (uid : option uuid) :
  subqueries db uid r_users = [r_users].
Proof. reflexivity. Qed.

(** A sub-query on [users] ends the rewriting: the policies of [users] are
    added to it, their sub-query on [users] comes next, and [users] is
    active by then. *)
Lemma fireRIRrules_users (db : database) (uid : option uuid) (depth : nat)
    (activeRIRs : list relname) (rel : relname) (links : list relname) :
  rel ∉ activeRIRs →
  fireRIRrules db uid (3 + depth) activeRIRs rel (r_users :: links)
  = Aborted (invalid_object_definition r_users).
Proof.
  intros Hrel. cbn [Nat.add fireRIRrules].
  rewrite bool_decide_eq_false_2 by done.
  cbn [fmap list_fmap all_of]. rewrite subqueries_users.
  destruct (decide (r_users ∈ rel :: activeRIRs)) as [Hin|Hout].
  - by rewrite bool_decide_eq_true_2.
  - rewrite bool_decide_eq_false_2 by done.
    cbn [fmap list_fmap all_of fireRIRrules]. rewrite subqueries_users.
    rewrite bool_decide_eq_true_2; [done|]. by left.
Qed.

(** The stack is deep enough: more of it gives the same answer. *)
Lemma fireRIRrules_depth (db : database) (uid : option uuid) (depth : nat)
    (activeRIRs : list relname) (rel : relname) (links : list relname) :
  Forall (fun rel' => rel' = r_users) links →
  fireRIRrules db uid (3 + depth) activeRIRs rel links
  = fireRIRrules db uid 3 activeRIRs rel links.
Proof.
  intros Hlinks. destruct Hlinks as [|rel' links -> _]; [done|].
  destruct (decide (rel ∈ activeRIRs)) as [Hin|Hout].
  - cbn [Nat.add fireRIRrules]. by rewrite !bool_decide_eq_true_2.
  - rewrite (fireRIRrules_users db uid depth) by done.
    by rewrite (fireRIRrules_users db uid 0).
Qed.

(** Every sub-query of a policy of the migration is on [users]. *)
Lemma sublinks_users (db : database) (uid : option uuid) (c : command) :
  Forall (fun rel' => rel' = r_users) (sublinks_of t_users db uid c)
  ∧ Forall (fun rel' => rel' = r_users) (sublinks_of t_permits db uid c)
  ∧ Forall (fun rel' => rel' = r_users) (sublinks_of t_activity_logs db uid c)
  ∧ Forall (fun rel' => rel' = r_users)
      (sublinks_of t_role_permissions db uid c)
  ∧ Forall (fun rel' => rel' = r_users) (sublinks_of t_regions db uid c).
Proof. destruct c; repeat split; by repeat constructor. Qed.

Lemma QueryRewrite_recursion {R} (T : table R) (db : database)
    (uid : option uuid) (c : command) (links : list relname) :
  sublinks_of T db uid c = r_users :: links →
  QueryRewrite T db uid c = Aborted (invalid_object_definition r_users).
Proof.
  intros Hlinks. unfold QueryRewrite. rewrite Hlinks.
  apply (fireRIRrules_users db uid 3). apply not_elem_of_nil.
Qed.

Lemma QueryRewrite_no_sublink {R} (T : table R) (db : database)
    (uid : option uuid) (c : command) :
  sublinks_of T db uid c = [] → QueryRewrite T db uid c = Committed ().
Proof. intros Hlinks. unfold QueryRewrite. by rewrite Hlinks. Qed.

(** A statement that the rewriter lets through has no sub-query in its
    policies: in a session under row security the executor never answers
    one. *)
Lemma rewritten_without_sublinks {R} (T : table R) (db : database)
    (uid : option uuid) (c : command) :
  Forall (fun rel' => rel' = r_users) (sublinks_of T db uid c) →
  QueryRewrite T db uid c = Committed () →
  sublinks_of T db uid c = [].
Proof.
  intros Hlinks Hok.
  destruct (sublinks_of T db uid c) as [|rel links] eqn:Heq; [done|].
  apply Forall_cons in Hlinks as [-> _].
  by rewrite (QueryRewrite_recursion T db uid c links) in Hok.
Qed.

(** The rewriter never runs out of stack on a table whose policies have
    sub-queries on [users] only, as those of the five tables have: with a
    deeper stack it says the same. *)
Lemma QueryRewrite_depth {R} (T : table R) (db : database)
    (uid : option uuid) (c : command) (depth : nat) :
  Forall (fun rel' => rel' = r_users) (sublinks_of T db uid c) →
  fireRIRrules db uid (S (length relations) + depth) [] (name T)
    (sublinks_of T db uid c)
  = QueryRewrite T db uid c.
Proof.
  intros Hlinks. unfold QueryRewrite.
  change (S (length relations) + depth) with (3 + (3 + depth)).
  change (S (length relations)) with (3 + 3).
  by rewrite !fireRIRrules_depth.
Qed.

(** What the rewriter says to the statements of a session under row
    security, table by table. *)
Lemma QueryRewrite_users (db : database) (uid : option uuid) (c : command)
    (reads : bool) :
  QueryRewrite (statement.secured t_users (RowSecurity uid) reads) db uid c
  = Aborted (invalid_object_definition r_users).
Proof. by destruct c, reads. Qed.

Lemma QueryRewrite_permits (db : database) (uid : option uuid) (c : command)
    (reads : bool) :
  QueryRewrite (statement.secured t_permits (RowSecurity uid) reads) db uid c
  = Aborted (invalid_object_definition r_users).
Proof. by destruct c, reads. Qed.

Lemma QueryRewrite_role_permissions (db : database) (uid : option uuid)
    (c : command) (reads : bool) :
  QueryRewrite (statement.secured t_role_permissions (RowSecurity uid) reads)
    db uid c
  = Aborted (invalid_object_definition r_users).
Proof. by destruct c, reads. Qed.

Lemma QueryRewrite_activity_logs (db : database) (uid : option uuid)
    (c : command) (reads : bool) :
  QueryRewrite (statement.secured t_activity_logs (RowSecurity uid) reads)
    db uid c
  = match c with
    | SELECT => Aborted (invalid_object_definition r_users)
    | INSERT => Committed ()
    | _ => if reads then Aborted (invalid_object_definition r_users)
           else Committed ()
    end.
Proof. by destruct c, reads. Qed.

Lemma QueryRewrite_regions (db : database) (uid : option uuid) (c : command)
    (reads : bool) :
  QueryRewrite (statement.secured t_regions (RowSecurity uid) reads) db uid c
  = match c with
    | SELECT => Aborted (invalid_object_definition r_users)
    | INSERT => Committed ()
    | _ => if reads then Aborted (invalid_object_definition r_users)
           else Committed ()
    end.
Proof. by destruct c, reads. Qed.

(* ===================================================================== *)
(** ** Reading permits *)
(* ===================================================================== *)

(** The expression of the read policy, with its sub-query answered from
    [users]: it holds for a caller with a row in [users] when the permit's
    region is one of the caller's or the caller is an admin or a manager. *)
Lemma permits_view_caller (db : database) (u : users.row) (p : permits.row) :
  users_pkey db → u ∈ tbl_users db →
  holds (permits_view_in_regions db (Some (users.id u)) p) = true
  ↔ Some (permits.region p) ∈ users.region u
    ∨ users.role u = "admin" ∨ users.role u = "manager".
Proof.
  intros Hkey Hu. unfold permits_view_in_regions.
  rewrite exists_caller by done.
  rewrite holds_or, holds_contains_one, holds_in, orb_true_iff.
  rewrite !bool_decide_eq_true, !elem_of_cons, elem_of_nil. tauto.
Qed.

Lemma sample_users_pkey : users_pkey sample.db.
Proof. unfold users_pkey. by_evaluation. Qed.

Lemma select_permits_raises (db : database) (uid : option uuid) :
  statement.select t_permits db (RowSecurity uid)
  = Aborted (invalid_object_definition r_users).
Proof.
  cbn [statement.select].
  by rewrite (QueryRewrite_recursion t_permits db uid SELECT []).
Qed.

(** C1.  Reading [permits] in a session under row security ends in
    "infinite recursion detected in policy for relation users", whatever the
    database holds and whoever the caller is: the read policy of [permits]
    has a sub-query on [users], and "Admins can read all users" of [users]
    has one on [users] again.  An observer of Riyadh gets no permit of
    Riyadh. *)
Theorem permit_read_raises :
  (∀ db uid,
     statement.select t_permits db (RowSecurity uid)
     = Aborted (invalid_object_definition r_users))
  ∧ sample.observer ∈ tbl_users sample.db
  ∧ sample.open_permit ∈ tbl_permits sample.db
  ∧ Some (permits.region sample.open_permit) ∈ users.region sample.observer
  ∧ statement.select t_permits sample.db
      (RowSecurity (Some (users.id sample.observer)))
    = Aborted (invalid_object_definition r_users).
Proof.
  split; [apply select_permits_raises|].
  split; [in_list|]. split; [in_list|].
  split; [by left | apply select_permits_raises].
Qed.

(* ===================================================================== *)
(** ** Properties of the statements *)
(* ===================================================================== *)

Lemma lawful_users : lawful t_users.
Proof. split; [done | by intros []]. Qed.

Lemma lawful_permits : lawful t_permits.
Proof. split; [done | by intros []]. Qed.

Lemma lawful_activity_logs : lawful t_activity_logs.
Proof. split; [done | by intros []]. Qed.


Lemma lawful_regions : lawful t_regions.
Proof. split; [done | by intros []]. Qed.

Lemma bind_committed {A B} (m : outcome A) (k : A → outcome B) (b : B) :
  m ≫= k = Committed b ↔ ∃ a, m = Committed a ∧ k a = Committed b.
Proof.
  destruct m as [a|e]; cbn.
  - split; [by exists a | by intros (? & [= ->] & ?)].
  - split; [done | by intros (? & ? & ?)].
Qed.

Lemma require_committed (b : bool) (e : sqlstate) :
  require b e = Committed () ↔ b = true.
Proof. by destruct b. Qed.

Lemma all_of_committed (steps : list (outcome unit)) :
  all_of steps = Committed () ↔ Forall (fun s => s = Committed ()) steps.
Proof.
  induction steps as [|s steps IH]; cbn [all_of].
  - by rewrite Forall_nil.
  - rewrite Forall_cons, bind_committed, <- IH.
    split; [by intros ([] & ? & ?) | intros [? ?]; by exists ()].
Qed.

Lemma commit_inv db db' :
  commit db' = Committed db → db = db' ∧ integrity db' = Committed ().
Proof.
  unfold commit. rewrite bind_committed.
  by intros ([] & ? & [= ->]).
Qed.


Lemma filter_all {R} (f : R → bool) (l : list R) :
  (∀ r, r ∈ l → f r = true) → List.filter f l = l.
Proof.
  induction l as [|x l IH]; intros Hf; [done|]. cbn.
  rewrite Hf by left. f_equal. apply IH. intros r Hr. apply Hf. by right.
Qed.

Lemma fmap_unless {R} (f : R → bool) (g : R → R) (l : list R) :
  (∀ r, r ∈ l → f r = false) → (fun r => if f r then g r else r) <$> l = l.
Proof.
  induction l as [|x l IH]; intros Hf; [done|]. cbn.
  rewrite Hf by left. f_equal. apply IH. intros r Hr. apply Hf. by right.
Qed.

Section StatementFacts.
Context {R : Type} (T : table R) (HT : lawful T).
Variable db : database.
Variable uid : option uuid.

(** An insert that the policy does not let pass is an authorization error. *)
Lemma insert_denied (new : R) :
  permitted T db uid INSERT new = false →
  insert T db uid new = Aborted insufficient_privilege.
Proof. intros H. unfold insert, write_row. by rewrite H. Qed.

(** An insert that commits passed the policy and the CHECK constraints. *)
Lemma insert_committed (new : R) (db' : database) :
  insert T db uid new = Committed db' →
  permitted T db uid INSERT new = true
  ∧ check_row T db new = Committed ()
  ∧ db' = with_rows T (rows T db ++ [new]) db.
Proof.
  unfold insert, write_row. rewrite bind_committed. intros ([] & Hw & H).
  apply bind_committed in Hw as ([] & Hp & Hc).
  apply require_committed in Hp.
  by apply commit_inv in H as [-> _].
Qed.

(** An update leaves the database as it was or with its targeted rows
    rewritten. *)
Lemma after_update (cond : R → sqlbool) (set : R → R) :
  after db (update T db uid cond set) = db
  ∨ after db (update T db uid cond set)
    = with_rows T ((fun r => if targeted T db uid UPDATE cond r
                             then set r else r) <$> rows T db) db.
Proof.
  unfold update, commit.
  destruct (all_of _) as [[]|]; cbn [mbind outcome_bind after]; [|by left].
  destruct (integrity _) as [[]|]; cbn [mbind outcome_bind after];
    [by right | by left].
Qed.

(** A row that the policy does not let pass is where and what it was after
    an update, whatever the update and its outcome. *)
Lemma update_untouched (cond : R → sqlbool) (set : R → R) (r : R) (i : nat) :
  permitted T db uid UPDATE r = false →
  rows T db !! i = Some r →
  rows T (after db (update T db uid cond set)) !! i = Some r.
Proof.
  intros Hp Hi.
  destruct (after_update cond set) as [-> | ->]; [done|].
  destruct HT as [-> _]. rewrite list_lookup_fmap, Hi. cbn.
  unfold targeted. by rewrite Hp, andb_false_r.
Qed.

(** When the policy lets no row pass, an update changes nothing. *)
Lemma update_denied (cond : R → sqlbool) (set : R → R) :
  (∀ r, permitted T db uid UPDATE r = false) →
  after db (update T db uid cond set) = db.
Proof.
  intros Hp.
  destruct (after_update cond set) as [-> | ->]; [done|].
  rewrite fmap_unless; [by destruct HT as [_ ->]|].
  intros r _. unfold targeted. by rewrite Hp, andb_false_r.
Qed.

(** A delete leaves the database as it was or without its targeted rows. *)
Lemma after_delete (cond : R → sqlbool) :
  after db (delete T db uid cond) = db
  ∨ after db (delete T db uid cond)
    = with_rows T (List.filter (fun r => negb (targeted T db uid DELETE cond r))
                     (rows T db)) db.
Proof.
  unfold delete, commit.
  destruct (integrity _) as [[]|]; cbn [mbind outcome_bind after];
    [by right | by left].
Qed.

(** When the policy lets no row pass, a delete removes nothing. *)
Lemma delete_denied (cond : R → sqlbool) :
  (∀ r, permitted T db uid DELETE r = false) →
  after db (delete T db uid cond) = db.
Proof.
  intros Hp.
  destruct (after_delete cond) as [-> | ->]; [done|].
  rewrite filter_all; [by destruct HT as [_ ->]|].
  intros r _. unfold targeted. by rewrite Hp, andb_false_r.
Qed.
End StatementFacts.

(* ===================================================================== *)
(** ** Closed permits *)
(* ===================================================================== *)

(** C2.  A permit whose [closed_at] is not null does not pass the update
    policy of [permits], whoever the caller is, and an UPDATE statement of
    any caller, with any WHERE clause and any assignments, leaves the row
    where it was and as it was. *)
Theorem closed_permit_immutable (db : database) (uid : option uuid)
    (cond : permits.row → sqlbool) (set : permits.row → permits.row)
    (p : permits.row) (i : nat) :
  permits.closed_at p ≠ None →
  tbl_permits db !! i = Some p →
  permitted t_permits db uid UPDATE p = false
  ∧ tbl_permits (after db (update t_permits db uid cond set)) !! i = Some p.
Proof.
  intros Hclosed Hi.
  assert (permitted t_permits db uid UPDATE p = false) as Hp.
  { unfold permitted. cbn [policies t_permits permits_policies].
    rewrite any_policy_one. unfold permits_update. rewrite holds_and.
    destruct (permits.closed_at p); [|done]. cbn. apply andb_false_r. }
  split; [done|].
  by apply (update_untouched t_permits lawful_permits).
Qed.

Lemma closed_permit_immutable_witness :
  permits.closed_at sample.closed_permit ≠ None
  ∧ tbl_permits sample.db !! 1 = Some sample.closed_permit
  ∧ permitted t_permits sample.db (Some (users.id sample.admin)) UPDATE
      sample.closed_permit = false
  ∧ tbl_permits
      (after sample.db
         (update t_permits sample.db (Some (users.id sample.admin))
            (fun p => sql_eq (Some (permits.id p)) (Some 11%N)) reopened))
    !! 1 = Some sample.closed_permit.
Proof.
  assert (permits.closed_at sample.closed_permit ≠ None) as Hclosed
    by discriminate.
  assert (tbl_permits sample.db !! 1 = Some sample.closed_permit) as Hi
    by reflexivity.
  split; [done|]. split; [done|].
  apply (closed_permit_immutable sample.db (Some (users.id sample.admin))
           (fun p => sql_eq (Some (permits.id p)) (Some 11%N)) reopened
           sample.closed_permit 1 Hclosed Hi).
Defined.

(* ===================================================================== *)
(** ** What a role may write *)
(* ===================================================================== *)

(** [EXISTS (SELECT 1 FROM users WHERE id = auth.uid() AND role = 'admin')]
    asks whether the caller is an admin. *)
Lemma caller_is_admin (db : database) (u : users.row) :
  users_pkey db → u ∈ tbl_users db →
  holds (sql_exists (tbl_users db) (fun u' =>
           sql_and (sql_eq (Some (users.id u')) (Some (users.id u)))
                   (sql_eq (Some (users.role u')) (Some "admin"))))
  = bool_decide (users.role u = "admin").
Proof. intros Hkey Hu. by rewrite exists_caller, holds_eq. Qed.

(** The role and region condition of creating and updating permits. *)
Lemma caller_may_write_permit (db : database) (u : users.row) (region : text) :
  users_pkey db → u ∈ tbl_users db →
  holds (sql_exists (tbl_users db) (fun u' =>
           sql_and (sql_eq (Some (users.id u')) (Some (users.id u)))
             (sql_and (sql_in (Some (users.role u')) ["admin"; "manager"])
                (sql_or (array_contains (users.region u') [Some region])
                        (sql_eq (Some (users.role u')) (Some "admin"))))))
  = bool_decide (users.role u ∈ ["admin"; "manager"])
    && (bool_decide (Some region ∈ users.region u)
        || bool_decide (users.role u = "admin")).
Proof.
  intros Hkey Hu.
  by rewrite exists_caller, holds_and, holds_in, holds_or,
    holds_contains_one, holds_eq.
Qed.




(* ===================================================================== *)
(** ** Deleting users *)
(* ===================================================================== *)

Lemma unique_key_committed {A} `{EqDecision A} (name : string) (col : list A) :
  unique_key name col = Committed () ↔ NoDup col.
Proof. unfold unique_key. by rewrite require_committed, bool_decide_eq_true. Qed.

Lemma references_committed {A} `{EqDecision A} (name : string)
    (col keys : list A) :
  references name col keys = Committed () ↔ ∀ x, x ∈ col → x ∈ keys.
Proof.
  unfold references. rewrite require_committed, forallb_forall.
  split; intros Hall x Hx.
  - apply (bool_decide_eq_true_1 _), Hall. by apply list_elem_of_In.
  - apply bool_decide_eq_true_2, Hall. by apply list_elem_of_In.
Qed.

(** The expression of the delete policy: it never holds on the caller's own
    row, and with its sub-query answered from [users] it holds on every
    other row when the caller is an admin. *)
Lemma delete_policy_self (db : database) (c : users.row) :
  permitted t_users db (Some (users.id c)) DELETE c = false.
Proof.
  unfold permitted. cbn [policies t_users users_policies].
  rewrite any_policy_one. unfold users_admin_delete.
  by rewrite holds_and, holds_ne_self, andb_false_r.
Qed.

Lemma delete_policy_other (db : database) (a t : users.row) :
  users_pkey db → a ∈ tbl_users db → users.role a = "admin" →
  users.id t ≠ users.id a →
  permitted t_users db (Some (users.id a)) DELETE t = true.
Proof.
  intros Hkey Ha Hrole Hne. unfold permitted.
  cbn [policies t_users users_policies].
  rewrite any_policy_one. unfold users_admin_delete.
  rewrite holds_and, caller_is_admin, holds_ne by done.
  by rewrite bool_decide_true.
Qed.

Lemma delete_users_raises (db : database) (uid : option uuid) (reads : bool)
    (cond : users.row → sqlbool) :
  statement.delete t_users db (RowSecurity uid) reads cond
  = Aborted (invalid_object_definition r_users).
Proof.
  unfold statement.delete. cbn [statement.auth_uid].
  by rewrite QueryRewrite_users.
Qed.

(** C6.  A DELETE on [users] in a session under row security ends in
    "infinite recursion detected in policy for relation users", for every
    caller and every WHERE clause: no user is deleted, the caller's own row
    no more than the row of another user.  An admin who deletes a user to
    whom nothing refers finds the user still there. *)
Theorem user_delete_raises :
  (∀ db uid reads cond,
     statement.delete t_users db (RowSecurity uid) reads cond
     = Aborted (invalid_object_definition r_users))
  ∧ users.role sample.admin = "admin"
  ∧ sample.admin ∈ tbl_users sample.db
  ∧ sample.guest ∈ tbl_users sample.db
  ∧ users.id sample.guest ≠ users.id sample.admin
  ∧ unreferenced sample.db (users.id sample.guest)
  ∧ sample.guest
      ∈ tbl_users
          (after sample.db
             (statement.delete t_users sample.db
                (RowSecurity (Some (users.id sample.admin))) true
                (fun r => sql_eq (Some (users.id r))
                                 (Some (users.id sample.guest))))).
Proof.
  split; [apply delete_users_raises|].
  split; [reflexivity|]. split; [in_list|]. split; [in_list|].
  split; [by vm_compute|].
  split; [repeat split; by_evaluation|].
  rewrite delete_users_raises. cbn [after]. in_list.
Qed.

(* ===================================================================== *)
(** ** Activity logs, role permissions and regions *)
(* ===================================================================== *)

(** C7.  An INSERT into [activity_logs] commits only when the entry's
    [user_id] is the caller's id, and with another [user_id] it is an
    authorization error, whatever the database holds on the caller. *)
Theorem activity_log_insert_own (db : database) (uid : option uuid)
    (new : activity_logs.row) :
  (∀ db', insert t_activity_logs db uid new = Committed db' →
          uid = Some (activity_logs.user_id new))
  ∧ (uid ≠ Some (activity_logs.user_id new) →
     insert t_activity_logs db uid new = Aborted insufficient_privilege).
Proof.
  assert (permitted t_activity_logs db uid INSERT new = true
          ↔ uid = Some (activity_logs.user_id new)) as Hp.
  { unfold permitted. cbn [policies t_activity_logs activity_logs_policies].
    rewrite any_policy_one. unfold activity_logs_create.
    rewrite holds_eq_iff. split; [by intros (x & [= <-] & ->)|].
    intros ->. by eexists. }
  split.
  - intros db' H. apply insert_committed in H as (H & _). by apply Hp.
  - intros Hne. apply insert_denied. apply not_true_is_false. by rewrite Hp.
Qed.

Lemma activity_log_insert_own_witness :
  Some (users.id sample.admin) ≠ Some (activity_logs.user_id (sample.log_entry 2%N))
  ∧ insert t_activity_logs sample.db (Some (users.id sample.admin))
      (sample.log_entry 2%N)
    = Aborted insufficient_privilege.
Proof.
  assert (Some (users.id sample.admin)
          ≠ Some (activity_logs.user_id (sample.log_entry 2%N))) as Hne
    by by vm_compute.
  split; [done|].
  by apply (activity_log_insert_own sample.db (Some (users.id sample.admin))
              (sample.log_entry 2%N)).
Defined.

(** C8.  Reading [role_permissions] or [regions] in a session under row
    security ends in "infinite recursion detected in policy for relation
    users", for every caller, with or without a row in [users]: both read
    policies have a sub-query on [users]. *)
Theorem reference_tables_raise :
  (∀ db uid,
     statement.select t_role_permissions db (RowSecurity uid)
     = Aborted (invalid_object_definition r_users)
     ∧ statement.select t_regions db (RowSecurity uid)
       = Aborted (invalid_object_definition r_users))
  ∧ sample.observer ∈ tbl_users sample.db
  ∧ tbl_regions sample.db ≠ []
  ∧ tbl_role_permissions sample.db ≠ [].
Proof.
  split; [by intros db uid|]. split; [in_list|].
  split; intros H; vm_compute in H; discriminate H.
Qed.

(* ===================================================================== *)
(** ** The seeded roles *)
(* ===================================================================== *)

Lemma jsonb_keys_flags (l : list (string * bool)) :
  jsonb_keys (json_flags l) = list_to_set l.*1.
Proof.
  unfold jsonb_keys, json_flags. rewrite dom_list_to_map_L.
  f_equal. rewrite <- list_fmap_compose. by apply list_fmap_ext.
Qed.

(** On the empty table no row conflicts: the four rows are inserted. *)
Lemma seed_role_permissions_rows (gen_random_uuid : nat → uuid)
    (now : timestamptz) :
  seed_role_permissions gen_random_uuid now
  = imap (fun i v => role_permissions.mk (gen_random_uuid i) v.1 v.2 (Some now))
         default_role_permissions.
Proof. reflexivity. Qed.

(** C5.  The migration leaves exactly four rows in [role_permissions], for
    admin, manager, security_officer and observer in this order; the
    permissions of each row are an object of exactly the twelve capability
    keys, and each key holds the boolean that the vector in words gives. *)
Theorem seeded_roles (gen_random_uuid : nat → uuid) (now : timestamptz) :
  role_permissions.role <$> seed_role_permissions gen_random_uuid now
  = ["admin"; "manager"; "security_officer"; "observer"]
  ∧ Forall (fun r =>
      jsonb_keys (role_permissions.permissions r) = list_to_set capabilities
      ∧ Forall (fun cap =>
          jsonb_get (role_permissions.permissions r) cap
          = Some (JBool (vector_in_words (role_permissions.role r) cap)))
          capabilities)
      (seed_role_permissions gen_random_uuid now).
Proof.
  split; [reflexivity|].
  rewrite seed_role_permissions_rows. unfold default_role_permissions.
  cbn [imap compose fst snd role_permissions.permissions role_permissions.role].
  repeat apply Forall_cons_2; try apply Forall_nil_2;
    cbn [imap compose fst snd role_permissions.permissions role_permissions.role].
  all: split; [by rewrite jsonb_keys_flags|].
  all: repeat apply Forall_cons_2; try apply Forall_nil_2.
  all: vm_compute; reflexivity.
Qed.

(* ===================================================================== *)
(** ** The regions of a user *)
(* ===================================================================== *)

Lemma validate_region_code_spec (db : database) (c : option text) :
  validate_region_code db c = Some true
  ↔ ∃ r, r ∈ tbl_regions db ∧ c = Some (regions.code r).
Proof.
  unfold validate_region_code, sql_exists.
  split.
  - intros [= H]. apply existsb_elem_of in H as (r & Hr & H).
    apply (holds_eq_iff (Some (regions.code r)) c) in H as (x & [= <-] & ->).
    by exists r.
  - intros (r & Hr & ->). f_equal. apply existsb_elem_of. exists r.
    by rewrite holds_eq, bool_decide_true.
Qed.

(** [validate_user_regions] is never NULL, and true exactly when every
    element of the array is a registered code. *)
Lemma validate_user_regions_spec (db : database) (codes : list (option text)) :
  (validate_user_regions db codes = Some true ↔ registered db codes)
  ∧ (validate_user_regions db codes = Some true
     ∨ validate_user_regions db codes = Some false).
Proof.
  unfold registered. induction codes as [|c codes [IH1 IH2]]; cbn [validate_user_regions].
  - split; [|by left]. split; [|done]. intros _ c Hc. by apply elem_of_nil in Hc.
  - pose proof (validate_region_code_spec db c) as Hc.
    unfold validate_region_code, sql_exists in *. cbn [sql_not fmap option_fmap option_map holds].
    destruct (existsb _ _); cbn [negb].
    + split; [|done]. rewrite IH1. split.
      * intros Hall c' [->|Hc']%elem_of_cons; [by apply Hc | by apply Hall].
      * intros Hall c' Hc'. apply Hall. by right.
    + split; [|by right]. split; [done|].
      intros Hall. destruct (Hall c) as (r & Hr & ->); [by left|].
      assert (Some false = Some true) as [=]. apply Hc. by exists r.
Qed.

Lemma users_check_row (db : database) (u : users.row) :
  check_row t_users db u = Committed () →
  registered db (users.region u).
Proof.
  unfold check_row. cbn [checks t_users fmap list_fmap snd fst].
  rewrite all_of_committed, !Forall_cons, !require_committed.
  intros (H & _). unfold users_regions_check in H.
  destruct (validate_user_regions_spec db (users.region u)) as [Hspec [Ht|Hf]].
  - by apply Hspec.
  - by rewrite Hf in H.
Qed.

Lemma lawful_secured {R} (T : table R) (s : session) (reads : bool) :
  lawful T → lawful (statement.secured T s reads).
Proof. by destruct s, reads. Qed.

Lemma check_row_secured {R} (T : table R) (s : session) (reads : bool)
    (db : database) (r : R) :
  check_row (statement.secured T s reads) db r = check_row T db r.
Proof. by destruct s, reads. Qed.

(** An insert of a session that commits passed the CHECK constraints. *)
Lemma statement_insert_committed {R} (T : table R) (db : database)
    (s : session) (new : R) (db' : database) :
  statement.insert T db s new = Committed db' →
  check_row T db new = Committed ()
  ∧ db' = with_rows T (rows T db ++ [new]) db.
Proof.
  destruct s as [|uid]; cbn [statement.insert].
  - intros H. by apply insert_committed in H as (_ & H & ->).
  - rewrite bind_committed. intros ([] & _ & H).
    by apply insert_committed in H as (_ & H & ->).
Qed.

(** A row of the table after an update that commits was there before, or is
    a new row that passed the CHECK constraints. *)
Lemma update_committed_rows {R} (T : table R) (db : database)
    (uid : option uuid) (cond : R → sqlbool) (set : R → R) (db' : database)
    (r' : R) :
  lawful T →
  update T db uid cond set = Committed db' →
  r' ∈ rows T db' →
  r' ∈ rows T db ∨ check_row T db r' = Committed ().
Proof.
  intros [Hrows _]. unfold update. rewrite bind_committed.
  intros ([] & Hnews & Hcommit) Hr'.
  apply commit_inv in Hcommit as [-> _]. rewrite Hrows in Hr'.
  apply list_elem_of_fmap in Hr' as (r & -> & Hr).
  destruct (targeted T db uid UPDATE cond r) eqn:Ht; [right | by left].
  rewrite all_of_committed, Forall_fmap, Forall_fmap, Forall_forall in Hnews.
  specialize (Hnews r). cbn [compose] in Hnews. unfold write_row in Hnews.
  rewrite bind_committed in Hnews. destruct Hnews as ([] & _ & H); [|done].
  apply list_elem_of_In, filter_In. by rewrite <- list_elem_of_In.
Qed.

(** C9, as the migration has it.  Whatever the session, an INSERT into
    [users] commits only if every element of the row's region array is the
    code of a row of [regions], and after an UPDATE of [users] that commits
    this holds of every row that was not there before.  An INSERT with a
    region array that has another element never commits; in a session to
    which row security is not applied it violates [users_regions_check].
    The array may be empty. *)
Theorem user_regions_registered (db : database) :
  (∀ s new db', statement.insert t_users db s new = Committed db' →
     registered db (users.region new))
  ∧ (∀ s reads cond set db' r',
       statement.update t_users db s reads cond set = Committed db' →
       r' ∈ tbl_users db' →
       r' ∈ tbl_users db ∨ registered db (users.region r'))
  ∧ (∀ s new, ¬ registered db (users.region new) →
       (∃ e, statement.insert t_users db s new = Aborted e)
       ∧ statement.insert t_users db BypassRLS new
         = Aborted (check_violation "users_regions_check")).
Proof.
  split; [|split].
  - intros s new db' H. apply statement_insert_committed in H as [H _].
    by apply (users_check_row db).
  - intros s reads cond set db' r' H Hr'. unfold statement.update in H.
    apply bind_committed in H as ([] & _ & H).
    apply (update_committed_rows _ _ _ _ _ _ r') in H as [H|H].
    + left. by destruct s, reads.
    + right. rewrite check_row_secured in H. by apply (users_check_row db).
    + apply lawful_secured, lawful_users.
    + by destruct s, reads.
  - intros s new Hnot. split.
    + destruct (statement.insert t_users db s new) as [db'|e] eqn:H;
        [|by exists e].
      apply statement_insert_committed in H as [H _].
      by apply (users_check_row db) in H.
    + cbn [statement.insert]. unfold insert, write_row.
      cbn [require mbind outcome_bind].
      unfold check_row.
      cbn [checks unrestricted t_users fmap list_fmap snd fst all_of].
      unfold users_regions_check at 1.
      destruct (validate_user_regions_spec db (users.region new))
        as [Hspec [Ht|Hf]].
      * by apply Hspec in Ht.
      * by rewrite Hf.
Qed.

Lemma sample_not_registered :
  ¬ registered sample.db (users.region sample.martian).
Proof.
  intros H. apply (validate_user_regions_spec sample.db) in H.
  vm_compute in H. discriminate.
Qed.

Lemma user_regions_registered_witness :
  ¬ registered sample.db (users.region sample.martian)
  ∧ statement.insert t_users sample.db BypassRLS sample.martian
    = Aborted (check_violation "users_regions_check").
Proof.
  split; [apply sample_not_registered|].
  apply (user_regions_registered sample.db), sample_not_registered.
  exact BypassRLS.
Defined.

(** The claim that a stored user has a region: in a session to which row
    security is not applied, as the migration's own INSERT of the admin is,
    a user whose region array is empty is inserted, and the insert
    commits. *)
Lemma user_without_region_accepted :
  statement.insert t_users sample.db BypassRLS sample.nowhere
  = Committed (with_rows t_users (tbl_users sample.db ++ [sample.nowhere])
                 sample.db)
  ∧ sample.nowhere
      ∈ tbl_users (after sample.db
                     (statement.insert t_users sample.db BypassRLS
                        sample.nowhere))
  ∧ ¬ (users.region sample.nowhere ≠ []
       ∧ registered sample.db (users.region sample.nowhere)).
Proof.
  assert (statement.insert t_users sample.db BypassRLS sample.nowhere
          = Committed (with_rows t_users
                         (tbl_users sample.db ++ [sample.nowhere]) sample.db))
    as H by (vm_compute; reflexivity).
  split; [exact H|]. split.
  - rewrite H. cbn [after with_rows t_users tbl_users].
    apply elem_of_app. right. apply list_elem_of_here.
  - clear H. intros [H' _]. by apply H'.
Qed.

(* ===================================================================== *)
(** ** Reopening a closed permit *)
(* ===================================================================== *)




(* ===================================================================== *)
(** ** [toSnakeCase] settles a value *)
(* ===================================================================== *)

Lemma toLowerCase_not_upper (c : ascii) :
  is_upper c = true → is_upper (toLowerCase c) = false.
Proof. by destruct c as [[] [] [] [] [] [] [] []]; vm_compute. Qed.

(** No letter of [[A-Z]] is left in a converted key. *)
Lemma snakeKey_lower (key : string) : lower_key (snakeKey key).
Proof.
  unfold lower_key. induction key as [|c key IH]; [done|]. cbn [snakeKey].
  destruct (is_upper c) eqn:Hc; cbn [snakeKey].
  - change (is_upper "_") with false. cbn match.
    by rewrite toLowerCase_not_upper, IH.
  - by rewrite Hc, IH.
Qed.

Lemma overwrite_keys (k : string) (v : value) (props : list (string * value)) :
  (overwrite k v props).*1 = props.*1.
Proof.
  induction props as [|[k' v'] props IH]; [done|]. cbn [overwrite].
  case_bool_decide as Hk; cbn; [by rewrite Hk | by rewrite IH].
Qed.

Lemma overwrite_values (P : value → Prop) (k : string) (v : value)
    (props : list (string * value)) :
  P v → Forall (fun kv => P kv.2) props →
  Forall (fun kv => P kv.2) (overwrite k v props).
Proof.
  intros Hv. induction 1 as [|[k' v'] props Hkv Hprops IH]; [done|].
  cbn [overwrite]. case_bool_decide; by constructor.
Qed.

Lemma insert_index_perm (n : N) (k : string) (v : value)
    (props : list (string * value)) :
  insert_index n k v props ≡ₚ (k, v) :: props.
Proof.
  induction props as [|[k' v'] props IH]; [done|]. cbn [insert_index].
  destruct (array_index k'); [|done].
  destruct (n <? _)%N; [done|]. by rewrite IH, Permutation_swap.
Qed.

Lemma insert_index_order (n : N) (k : string) (v : value)
    (props : list (string * value)) :
  array_index k = Some n → key_order props.*1 →
  key_order (insert_index n k v props).*1.
Proof.
  intros Hk. induction props as [|[k' v'] props IH]; intros Hord.
  - cbn [insert_index fmap list_fmap fst]. split; [|done].
    intros k' Hk'. by apply elem_of_nil in Hk'.
  - cbn [insert_index]. cbn [fmap list_fmap fst] in Hord.
    destruct Hord as [Hhead Htail].
    destruct (array_index k') as [n'|] eqn:Hk'.
    + destruct (N.ltb_spec n n') as [Hlt|Hge].
      * cbn [fmap list_fmap fst]. split; [|by split].
        intros k'' [->|Hin]%elem_of_cons.
        -- unfold precedes. rewrite Hk, Hk'. lia.
        -- specialize (Hhead k'' Hin). unfold precedes in *.
           rewrite Hk' in Hhead. rewrite Hk.
           destruct (array_index k''); [lia|done].
      * cbn [fmap list_fmap fst]. split; [|by apply IH].
        intros k'' Hin.
        assert (k'' ∈ k :: props.*1) as [->|Hin']%elem_of_cons.
        { change (k'' ∈ ((k, v) :: props).*1).
          by rewrite <- (insert_index_perm n k v props). }
        -- unfold precedes. by rewrite Hk, Hk'.
        -- by apply Hhead.
    + cbn [fmap list_fmap fst]. split; [|by split].
      intros k'' [->|Hin]%elem_of_cons.
      * unfold precedes. by rewrite Hk, Hk'.
      * specialize (Hhead k'' Hin). unfold precedes in *.
        rewrite Hk' in Hhead. rewrite Hk. by destruct (array_index k'').
Qed.

Lemma key_order_snoc (ks : list string) (k : string) :
  array_index k = None → key_order ks → key_order (ks ++ [k]).
Proof.
  intros Hk. induction ks as [|k' ks IH]; intros Hord.
  - split; [|done]. intros k' Hk'. by apply elem_of_nil in Hk'.
  - destruct Hord as [Hhead Htail]. split; [|by apply IH].
    intros k'' [Hin|Heq%list_elem_of_singleton]%elem_of_app; [by apply Hhead|].
    subst k''. unfold precedes. rewrite Hk. by destruct (array_index k').
Qed.

Lemma key_order_prefix (ks ks' : list string) :
  key_order (ks ++ ks') → key_order ks.
Proof.
  induction ks as [|k ks IH]; [done|]. intros [Hhead Htail].
  split; [|by apply IH]. intros k' Hk'. apply Hhead, elem_of_app. by left.
Qed.

(** A new own property keeps the properties settled. *)
Lemma define_settled (props : list (string * value)) (k : string) (v : value) :
  lower_key k → k ≠ "__proto__" → k ∉ props.*1 → settled v →
  settled_props props → settled_props (define k v props).
Proof.
  intros Hk Hp Hin Hv [(Hdup & Hord & Hproto & Hlow) Hvals]. unfold define.
  destruct (array_index k) as [n|] eqn:Hidx.
  - pose proof (insert_index_perm n k v props) as Hperm.
    split; [|by rewrite Hperm; constructor].
    repeat split.
    + rewrite Hperm. cbn. by apply NoDup_cons.
    + by apply insert_index_order.
    + rewrite Hperm. cbn. rewrite elem_of_cons. intros [?|?]; by auto.
    + rewrite Hperm. cbn. by constructor.
  - split; [|by apply Forall_app; split; [|constructor]].
    rewrite fmap_app. cbn. repeat split.
    + apply NoDup_app. repeat split; [done| |apply NoDup_singleton].
      intros k' Hk' Heq%list_elem_of_singleton. by subst k'.
    + by apply key_order_snoc.
    + rewrite elem_of_app, list_elem_of_singleton. intros [?|?]; by auto.
    + apply Forall_app. split; [done|]. by constructor.
Qed.

(** Setting a key other than [__proto__] on an object that inherits from
    [Object.prototype] leaves the prototype and keeps the properties
    settled. *)
Lemma obj_set_settled (props : list (string * value)) (k : string) (v : value) :
  lower_key k → k ≠ "__proto__" → settled v → settled_props props →
  ∃ props', obj_set (ObjectPrototype, props) k v = (ObjectPrototype, props')
            ∧ settled_props props'.
Proof.
  intros Hk Hp Hv Hprops. unfold obj_set. cbn [fst snd].
  case_bool_decide as Hin.
  - eexists. split; [done|]. destruct Hprops as [Hkeys Hvals].
    split; [by rewrite overwrite_keys | by apply overwrite_values].
  - rewrite bool_decide_false by done. cbn [andb].
    eexists. split; [done|]. by apply define_settled.
Qed.

Lemma fold_settled (step_value : value → value)
    (props acc : list (string * value)) :
  Forall (fun kv => snakeKey kv.1 ≠ "__proto__" ∧ settled (step_value kv.2))
    props →
  settled_props acc →
  ∃ props',
    fold_left (fun acc kv => obj_set acc (snakeKey kv.1) (step_value kv.2))
      props (ObjectPrototype, acc)
    = (ObjectPrototype, props')
    ∧ settled_props props'.
Proof.
  intros Hprops. revert acc.
  induction Hprops as [|kv props [Hk Hv] Hprops IH]; intros acc Hacc.
  - by exists acc.
  - cbn [fold_left].
    destruct (obj_set_settled acc (snakeKey kv.1) (step_value kv.2))
      as (acc' & -> & Hacc'); [apply snakeKey_lower|done..|].
    by apply IH.
Qed.

Lemma settled_props_nil : settled_props [].
Proof.
  repeat split; try by constructor. apply not_elem_of_nil.
Qed.

(** What [toSnakeCase] returns for a value without [__proto__] keys is
    settled. *)
Lemma toSnakeCase_settled (v : value) :
  proto_free v = true → settled (toSnakeCase v).
Proof.
  induction v as [| | | | |elems IH|proto props _ IH] using value_ind';
    cbn [toSnakeCase proto_free]; try by constructor.
  - intros Hfree. constructor. apply Forall_fmap.
    rewrite forallb_forall in Hfree. rewrite Forall_forall in *.
    intros x Hx. apply IH; [done|]. by apply Hfree, list_elem_of_In.
  - intros Hfree.
    destruct (fold_settled toSnakeCase props []) as (props' & -> & Hkeys & Hvals);
      [|apply settled_props_nil|by constructor].
    rewrite forallb_forall in Hfree. rewrite Forall_forall in *.
    intros kv Hkv.
    specialize (Hfree kv (proj1 (list_elem_of_In _ _) Hkv)).
    apply andb_true_iff in Hfree as [Hk Hv].
    apply negb_true_iff, bool_decide_eq_false in Hk.
    split; [done|]. by apply IH.
Qed.

(** A new key that is in order after the keys of [acc] becomes its last
    property. *)
Lemma insert_index_last (n : N) (k : string) (v : value)
    (acc : list (string * value)) :
  array_index k = Some n → key_order (acc.*1 ++ [k]) →
  insert_index n k v acc = acc ++ [(k, v)].
Proof.
  intros Hk. induction acc as [|[k' v'] acc IH]; intros Hord; [done|].
  cbn [fmap list_fmap fst app] in Hord. destruct Hord as [Hhead Htail].
  cbn [insert_index app].
  assert (precedes k' k) as Hpre.
  { apply Hhead, elem_of_app. right. by apply list_elem_of_singleton. }
  unfold precedes in Hpre. rewrite Hk in Hpre.
  destruct (array_index k') as [n'|]; [|done].
  destruct (N.ltb_spec n n'); [lia|]. by rewrite IH.
Qed.

Lemma obj_set_last (acc : list (string * value)) (k : string) (v : value) :
  settled_keys (acc.*1 ++ [k]) →
  obj_set (ObjectPrototype, acc) k v = (ObjectPrototype, acc ++ [(k, v)]).
Proof.
  intros (Hdup & Hord & Hproto & _). unfold obj_set. cbn [fst snd].
  apply NoDup_app in Hdup as (_ & Hfresh & _).
  rewrite bool_decide_false.
  2: { intros Hin. apply (Hfresh k Hin). by apply list_elem_of_singleton. }
  rewrite bool_decide_false.
  2: { intros ->. apply Hproto, elem_of_app. right.
       by apply list_elem_of_singleton. }
  cbn [andb]. f_equal. unfold define.
  destruct (array_index k) as [n|] eqn:Hk; [|done].
  by apply insert_index_last.
Qed.

(** Setting the properties of a settled object again, in their order and
    with their values, builds the same object. *)
Lemma fold_settled_id (step_value : value → value)
    (props acc : list (string * value)) :
  settled_keys (acc ++ props).*1 →
  Forall (fun kv => step_value kv.2 = kv.2) props →
  fold_left (fun acc kv => obj_set acc (snakeKey kv.1) (step_value kv.2))
    props (ObjectPrototype, acc)
  = (ObjectPrototype, acc ++ props).
Proof.
  intros Hkeys Hprops. revert acc Hkeys.
  induction Hprops as [|[k v] props Hkv Hprops IH]; intros acc Hkeys.
  - by rewrite app_nil_r.
  - cbn [fold_left fst snd] in *. rewrite Hkv.
    assert (settled_keys ((acc ++ [(k, v)]) ++ props).*1) as Hkeys'
      by by rewrite <- app_assoc.
    assert (lower_key k) as ->.
    { destruct Hkeys as (_ & _ & _ & Hlow).
      rewrite fmap_app, Forall_app, fmap_cons, Forall_cons in Hlow.
      by destruct Hlow as (_ & ? & _). }
    rewrite obj_set_last.
    + by rewrite IH, <- app_assoc.
    + destruct Hkeys' as (Hdup & Hord & Hproto & Hlow).
      rewrite !fmap_app in *. cbn [fmap list_fmap fst] in *.
      repeat split.
      * by apply NoDup_app in Hdup as (? & _).
      * by apply key_order_prefix in Hord.
      * intros Hin. apply Hproto, elem_of_app. by left.
      * by apply Forall_app in Hlow as [? _].
Qed.

(** [toSnakeCase] returns a settled value as it is. *)
Lemma toSnakeCase_fixes_settled (v : value) : settled v → toSnakeCase v = v.
Proof.
  induction v as [| | | | |elems IH|proto props _ IH] using value_ind';
    try done.
  - intros Hs. inversion Hs as [| | | | |? Helems|]; subst.
    cbn [toSnakeCase]. f_equal.
    clear Hs. induction IH as [|x elems Hx _ IHelems]; [done|].
    apply Forall_cons in Helems as [Hsx Helems].
    cbn. by rewrite Hx, IHelems.
  - intros Hs. inversion Hs as [| | | | | |? Hkeys Hvals]; subst.
    cbn [toSnakeCase].
    rewrite (fold_settled_id toSnakeCase props []); [done|done|].
    rewrite Forall_forall in *. intros kv Hkv. by apply IH, Hvals.
Qed.

Example snakeKey_carrierName : snakeKey "carrierName" = "carrier_name".
Proof. reflexivity. Qed.

Example toSnakeCase_permit_data :
  toSnakeCase sample.permit_data
  = VObject ObjectPrototype [
      ("permit_number", VString "MHV2025000003");
      ("date", VString "2025-09-11");
      ("region", VString "riyadh");
      ("location", VString "Gate 3");
      ("carrier_name", VString "Carrier");
      ("carrier_id", VString "3030303030");
      ("request_type", VString "material_entrance");
      ("vehicle_plate", VString "KSA 5555");
      ("materials", VArray [
         VObject ObjectPrototype [
           ("id", VString "m1");
           ("description", VString "Steel pipes");
           ("serial_number", VString "SN-001")]])
    ].
Proof. reflexivity. Qed.

(** Two keys with one converted form: the property keeps the place of the
    first and the value of the last; array indices come first. *)
Example toSnakeCase_collision :
  toSnakeCase (VObject ObjectPrototype
                 [("aB", VBoolean true); ("b", VNull); ("7", VNull);
                  ("a_b", VBoolean false); ("2", VNull)])
  = VObject ObjectPrototype
      [("2", VNull); ("7", VNull); ("a_b", VBoolean false); ("b", VNull)].
Proof. reflexivity. Qed.

Lemma snakeKey_cons_inv (c a : ascii) (r s : string) :
  snakeKey (String c r) = String a s →
  (is_upper c = false ∧ a = c ∧ snakeKey r = s)
  ∨ (is_upper c = true ∧ a = "_"%char
     ∧ ∃ s', String (toLowerCase c) s' = s ∧ snakeKey r = s').
Proof.
  cbn [snakeKey]. destruct (is_upper c); intros [= <- <-]; [right|left]; eauto.
Qed.

Lemma toLowerCase_inv (c a : ascii) :
  is_upper c = true → toLowerCase c = a →
  is_upper a = false ∧ a ≠ "_"%char ∧ (a = "p"%char → c = "P"%char).
Proof.
  intros Hc <-.
  destruct c as [[] [] [] [] [] [] [] []]; try discriminate Hc;
    (split; [reflexivity|]); (split; [discriminate|]); by intros [=].
Qed.

Lemma snakeKey_nil_inv (k : string) : snakeKey k = EmptyString → k = EmptyString.
Proof. destruct k as [|c k]; [done|]. cbn. by destruct (is_upper c). Qed.

(** One character of a key whose conversion is known. *)
Ltac peel H :=
  match type of H with
  | snakeKey ?k = String _ _ =>
      let c := fresh "c" in let r := fresh "r" in
      let Hu := fresh "Hu" in let Ha := fresh "Ha" in
      let Hs := fresh "Hs" in let s' := fresh "s" in
      destruct k as [|c r]; [discriminate H|];
      apply snakeKey_cons_inv in H as [(Hu & <- & H)|(Hu & Ha & s' & Hs & H)];
      [|try discriminate Ha; try discriminate Hs;
        try (exfalso; injection Hs as Hs _;
             by destruct (toLowerCase_inv _ _ Hu Hs) as (_ & ? & _))]
  end.

(** The keys that the conversion turns into [__proto__]. *)
Lemma snakeKey_proto (k : string) :
  snakeKey k = "__proto__" ↔ k = "__proto__" ∨ k = "_Proto__".
Proof.
  split; [|by intros [->| ->]].
  intros H. peel H. peel H.
  - do 7 peel H. apply snakeKey_nil_inv in H. subst. by left.
  - injection Hs as Hs Hs'.
    destruct (toLowerCase_inv _ _ Hu0 Hs) as (_ & _ & Hp).
    specialize (Hp eq_refl). subst c s.
    do 6 peel H. apply snakeKey_nil_inv in H. subst. by right.
Qed.

(** C10, for the values it holds of.  On every value none of whose object
    keys is [__proto__] after the conversion (none is [__proto__] or
    [_Proto__]), [toSnakeCase] is idempotent: applied to its own result,
    whose keys hold no letter of [[A-Z]], it returns that result. *)
Theorem toSnakeCase_idempotent (v : value) :
  proto_free v = true →
  toSnakeCase (toSnakeCase v) = toSnakeCase v.
Proof.
  intros Hfree. by apply toSnakeCase_fixes_settled, toSnakeCase_settled.
Qed.

Lemma toSnakeCase_idempotent_witness :
  proto_free sample.permit_data = true
  ∧ toSnakeCase (toSnakeCase sample.permit_data)
    = toSnakeCase sample.permit_data.
Proof.
  assert (proto_free sample.permit_data = true) as Hfree
    by (vm_compute; reflexivity).
  split; [done|].
  apply (toSnakeCase_idempotent sample.permit_data Hfree).
Defined.

(** The claim for every value of JSON: an object with the own keys
    [__proto__], holding [null], and [_Proto__].  The first assignment takes
    the prototype away from the result, the second then makes an own
    property [__proto__]; converting the result again drops that property. *)
Lemma toSnakeCase_proto_not_idempotent :
  json_like sample.proto_data = true
  ∧ toSnakeCase sample.proto_data
    = VObject NullPrototype [("__proto__", VNumber 1)]
  ∧ toSnakeCase (toSnakeCase sample.proto_data) = VObject ObjectPrototype []
  ∧ toSnakeCase (toSnakeCase sample.proto_data) ≠ toSnakeCase sample.proto_data.
Proof.
  split; [reflexivity|]. split; [reflexivity|]. split; [reflexivity|].
  discriminate.
Qed.
(* ===================================================================== *)
(** ** Further properties of the policies *)
(* ===================================================================== *)

(** The keys and references of a database, one by one. *)
Lemma integrity_committed (db : database) :
  integrity db = Committed () ↔
    NoDup (role_permissions.id <$> tbl_role_permissions db)
    ∧ NoDup (role_permissions.role <$> tbl_role_permissions db)
    ∧ NoDup (regions.id <$> tbl_regions db)
    ∧ NoDup (regions.code <$> tbl_regions db)
    ∧ NoDup (users.id <$> tbl_users db)
    ∧ NoDup (users.username <$> tbl_users db)
    ∧ NoDup (users.email <$> tbl_users db)
    ∧ (∀ x, x ∈ users.role <$> tbl_users db →
            x ∈ role_permissions.role <$> tbl_role_permissions db)
    ∧ NoDup (permits.id <$> tbl_permits db)
    ∧ NoDup (permits.permit_number <$> tbl_permits db)
    ∧ (∀ x, x ∈ omap permits.closed_by (tbl_permits db) →
            x ∈ users.id <$> tbl_users db)
    ∧ (∀ x, x ∈ permits.created_by <$> tbl_permits db →
            x ∈ users.id <$> tbl_users db)
    ∧ NoDup (activity_logs.id <$> tbl_activity_logs db)
    ∧ (∀ x, x ∈ activity_logs.user_id <$> tbl_activity_logs db →
            x ∈ users.id <$> tbl_users db).
Proof.
  unfold integrity.
  rewrite !all_of_committed, !Forall_cons, !unique_key_committed,
    !references_committed, Forall_nil.
  tauto.
Qed.

(** An aborted step aborts the steps. *)
Lemma all_of_aborted (steps : list (outcome unit)) (e : sqlstate) :
  Aborted e ∈ steps → ∃ e', all_of steps = Aborted e'.
Proof.
  induction steps as [|s steps IH]; intros Hin.
  - by apply elem_of_nil in Hin.
  - cbn [all_of]. apply elem_of_cons in Hin as [<-|Hin]; [by exists e|].
    destruct s as [[]|e0]; [by apply IH | by exists e0].
Qed.

Lemma no_policy_permits_nothing {R} (T : table R) db uid (c : command) (r : R) :
  policies T db uid c = [] → permitted T db uid c r = false.
Proof. unfold permitted. by intros ->. Qed.

Section RowSecurity.
Context {R : Type} (T : table R).
Variable db : database.
Variable uid : option uuid.

(** When the rewriter refuses the command on [T], with or without the
    SELECT policies, every statement with that command ends there. *)
Lemma insert_raises (e : sqlstate) (new : R) :
  QueryRewrite T db uid INSERT = Aborted e →
  statement.insert T db (RowSecurity uid) new = Aborted e.
Proof. intros H. cbn [statement.insert]. by rewrite H. Qed.

Lemma update_raises (e : sqlstate) (reads : bool) (cond : R → sqlbool)
    (set : R → R) :
  QueryRewrite (statement.secured T (RowSecurity uid) reads) db uid UPDATE
  = Aborted e →
  statement.update T db (RowSecurity uid) reads cond set = Aborted e.
Proof.
  intros H. unfold statement.update. cbn [statement.auth_uid]. by rewrite H.
Qed.

Lemma delete_raises (e : sqlstate) (reads : bool) (cond : R → sqlbool) :
  QueryRewrite (statement.secured T (RowSecurity uid) reads) db uid DELETE
  = Aborted e →
  statement.delete T db (RowSecurity uid) reads cond = Aborted e.
Proof.
  intros H. unfold statement.delete. cbn [statement.auth_uid]. by rewrite H.
Qed.

(** A session under row security does no more than the executor does
    with the policies: what it reads and what it inserts, the executor reads
    and inserts. *)
Lemma statement_select_committed (l : list R) :
  statement.select T db (RowSecurity uid) = Committed l →
  l = select T db uid.
Proof.
  cbn [statement.select]. rewrite bind_committed.
  by intros ([] & _ & [= <-]).
Qed.

Lemma statement_insert_executed (new : R) (db' : database) :
  statement.insert T db (RowSecurity uid) new = Committed db' →
  insert T db uid new = Committed db'.
Proof.
  cbn [statement.insert]. rewrite bind_committed. by intros ([] & _ & H).
Qed.

Lemma statement_insert_refused (new : R) (e : sqlstate) :
  insert T db uid new = Aborted e →
  ∃ e', statement.insert T db (RowSecurity uid) new = Aborted e'.
Proof.
  intros He.
  destruct (statement.insert T db (RowSecurity uid) new) as [db'|e'] eqn:H;
    [|by exists e'].
  apply statement_insert_executed in H. by rewrite He in H.
Qed.

(** The SELECT policies that are added to a command only take rows away. *)
Lemma permitted_secured (reads : bool) (c : command) (r : R) :
  permitted T db uid c r = false →
  permitted (statement.secured T (RowSecurity uid) reads) db uid c r = false.
Proof.
  intros Hp. destruct reads; [|done]. revert Hp. unfold permitted.
  destruct c; cbn [statement.secured reading policies]; try done.
  - rewrite any_policy_one. by intros ->.
  - rewrite any_policy_one. by intros ->.
Qed.

(** A row that the update policy does not let pass is where and what it was
    after an UPDATE of the session. *)
Lemma statement_update_untouched (reads : bool) (cond : R → sqlbool)
    (set : R → R) (r : R) (i : nat) :
  lawful T → permitted T db uid UPDATE r = false →
  rows T db !! i = Some r →
  rows T (after db (statement.update T db (RowSecurity uid) reads cond set))
    !! i = Some r.
Proof.
  intros HT Hden Hi. unfold statement.update. cbn [statement.auth_uid].
  destruct (QueryRewrite _ _ _ _) as [[]|]; [|done].
  cbn [mbind outcome_bind].
  assert (∀ db', rows T db'
                 = rows (statement.secured T (RowSecurity uid) reads) db')
    as Hrows by by destruct reads.
  rewrite Hrows. rewrite Hrows in Hi.
  apply update_untouched; [by apply lawful_secured | | done].
  by apply permitted_secured.
Qed.

(** When the policies of the command let no row pass, an UPDATE or a DELETE
    of the session changes nothing. *)
Lemma statement_update_denied (reads : bool) (cond : R → sqlbool)
    (set : R → R) :
  lawful T → (∀ r, permitted T db uid UPDATE r = false) →
  after db (statement.update T db (RowSecurity uid) reads cond set) = db.
Proof.
  intros HT Hden. unfold statement.update. cbn [statement.auth_uid].
  destruct (QueryRewrite _ _ _ _) as [[]|]; [|done].
  cbn [mbind outcome_bind]. apply update_denied; [by apply lawful_secured|].
  intros r. by apply permitted_secured.
Qed.

Lemma statement_delete_denied (reads : bool) (cond : R → sqlbool) :
  lawful T → (∀ r, permitted T db uid DELETE r = false) →
  after db (statement.delete T db (RowSecurity uid) reads cond) = db.
Proof.
  intros HT Hden. unfold statement.delete. cbn [statement.auth_uid].
  destruct (QueryRewrite _ _ _ _) as [[]|]; [|done].
  cbn [mbind outcome_bind]. apply delete_denied; [by apply lawful_secured|].
  intros r. by apply permitted_secured.
Qed.
End RowSecurity.

(** X1.  In a session under row security every SELECT on the five tables
    ends in "infinite recursion detected in policy for relation users", and
    so does every INSERT, UPDATE and DELETE on [users], [permits] and
    [role_permissions], whoever the caller is.  On [activity_logs] and
    [regions] an UPDATE or DELETE that reads the rows it acts on ends the
    same way, and one that does not changes nothing; an INSERT into
    [regions] is refused as a violation of row security.  Only an INSERT
    into [activity_logs] can commit: it then bears the caller's id and is
    added to the table, and nothing else is changed. *)
Theorem row_security_outcomes (db : database) (uid : option uuid) :
  (statement.select t_users db (RowSecurity uid)
   = Aborted (invalid_object_definition r_users)
   ∧ statement.select t_permits db (RowSecurity uid)
     = Aborted (invalid_object_definition r_users)
   ∧ statement.select t_activity_logs db (RowSecurity uid)
     = Aborted (invalid_object_definition r_users)
   ∧ statement.select t_role_permissions db (RowSecurity uid)
     = Aborted (invalid_object_definition r_users)
   ∧ statement.select t_regions db (RowSecurity uid)
     = Aborted (invalid_object_definition r_users))
  ∧ ((∀ new, statement.insert t_users db (RowSecurity uid) new
             = Aborted (invalid_object_definition r_users))
     ∧ (∀ reads cond set,
          statement.update t_users db (RowSecurity uid) reads cond set
          = Aborted (invalid_object_definition r_users))
     ∧ (∀ reads cond,
          statement.delete t_users db (RowSecurity uid) reads cond
          = Aborted (invalid_object_definition r_users)))
  ∧ ((∀ new, statement.insert t_permits db (RowSecurity uid) new
             = Aborted (invalid_object_definition r_users))
     ∧ (∀ reads cond set,
          statement.update t_permits db (RowSecurity uid) reads cond set
          = Aborted (invalid_object_definition r_users))
     ∧ (∀ reads cond,
          statement.delete t_permits db (RowSecurity uid) reads cond
          = Aborted (invalid_object_definition r_users)))
  ∧ ((∀ new, statement.insert t_role_permissions db (RowSecurity uid) new
             = Aborted (invalid_object_definition r_users))
     ∧ (∀ reads cond set,
          statement.update t_role_permissions db (RowSecurity uid) reads cond
            set
          = Aborted (invalid_object_definition r_users))
     ∧ (∀ reads cond,
          statement.delete t_role_permissions db (RowSecurity uid) reads cond
          = Aborted (invalid_object_definition r_users)))
  ∧ ((∀ new, statement.insert t_regions db (RowSecurity uid) new
             = Aborted insufficient_privilege)
     ∧ (∀ cond set,
          statement.update t_regions db (RowSecurity uid) true cond set
          = Aborted (invalid_object_definition r_users)
          ∧ after db (statement.update t_regions db (RowSecurity uid) false
                        cond set) = db)
     ∧ (∀ cond,
          statement.delete t_regions db (RowSecurity uid) true cond
          = Aborted (invalid_object_definition r_users)
          ∧ after db (statement.delete t_regions db (RowSecurity uid) false
                        cond) = db))
  ∧ ((∀ new db',
        statement.insert t_activity_logs db (RowSecurity uid) new
        = Committed db' →
        uid = Some (activity_logs.user_id new)
        ∧ db' = with_rows t_activity_logs (tbl_activity_logs db ++ [new]) db)
     ∧ (∀ cond set,
          statement.update t_activity_logs db (RowSecurity uid) true cond set
          = Aborted (invalid_object_definition r_users)
          ∧ after db (statement.update t_activity_logs db (RowSecurity uid)
                        false cond set) = db)
     ∧ (∀ cond,
          statement.delete t_activity_logs db (RowSecurity uid) true cond
          = Aborted (invalid_object_definition r_users)
          ∧ after db (statement.delete t_activity_logs db (RowSecurity uid)
                        false cond) = db)).
Proof.
  split; [by repeat split|].
  split; [|split; [|split; [|split]]].
  - split; [|split]; intros.
    + by apply insert_raises.
    + apply update_raises, QueryRewrite_users.
    + apply delete_raises, QueryRewrite_users.
  - split; [|split]; intros.
    + by apply insert_raises.
    + apply update_raises, QueryRewrite_permits.
    + apply delete_raises, QueryRewrite_permits.
  - split; [|split]; intros.
    + by apply insert_raises.
    + apply update_raises, QueryRewrite_role_permissions.
    + apply delete_raises, QueryRewrite_role_permissions.
  - split; [|split]; intros.
    + cbn [statement.insert]. rewrite QueryRewrite_no_sublink by done.
      cbn [mbind outcome_bind]. apply insert_denied.
      by apply no_policy_permits_nothing.
    + split; [apply update_raises; by rewrite QueryRewrite_regions|].
      apply statement_update_denied; [apply lawful_regions|].
      intros r. by apply no_policy_permits_nothing.
    + split; [apply delete_raises; by rewrite QueryRewrite_regions|].
      apply statement_delete_denied; [apply lawful_regions|].
      intros r. by apply no_policy_permits_nothing.
  - split; [|split]; intros.
    + apply statement_insert_executed, insert_committed in H as (H & _ & ->).
      split; [|done].
      unfold permitted in H.
      cbn [policies t_activity_logs activity_logs_policies] in H.
      rewrite any_policy_one in H. unfold activity_logs_create in H.
      by apply holds_eq_iff in H as (x & [= <-] & ->).
    + split; [apply update_raises; by rewrite QueryRewrite_activity_logs|].
      apply statement_update_denied; [apply lawful_activity_logs|].
      intros r. by apply no_policy_permits_nothing.
    + split; [apply delete_raises; by rewrite QueryRewrite_activity_logs|].
      apply statement_delete_denied; [apply lawful_activity_logs|].
      intros r. by apply no_policy_permits_nothing.
Qed.

Lemma row_security_outcomes_witness :
  statement.insert t_activity_logs sample.db
    (RowSecurity (Some (users.id sample.officer))) (sample.log_entry 2%N)
  = Committed cases.logged
  ∧ Some (users.id sample.officer)
    = Some (activity_logs.user_id (sample.log_entry 2%N)).
Proof.
  assert (statement.insert t_activity_logs sample.db
            (RowSecurity (Some (users.id sample.officer)))
            (sample.log_entry 2%N)
          = Committed cases.logged) as H by (vm_compute; reflexivity).
  split; [exact H|].
  destruct (row_security_outcomes sample.db (Some (users.id sample.officer)))
    as (_ & _ & _ & _ & _ & Hlog & _).
  exact (proj1 (Hlog _ _ H)).
Defined.






(** X4.  The update policy of [permits] is also the check of the rows an
    UPDATE writes, and it asks for [closed_at IS NULL]: an UPDATE that would
    leave a row it acts on with a [closed_at] never commits, whoever the
    caller is.  A permit cannot be closed through the policy. *)
Theorem permit_close_through_update_aborts (db : database)
    (uid : option uuid) (cond : permits.row → sqlbool)
    (set : permits.row → permits.row) (p : permits.row) :
  p ∈ tbl_permits db →
  targeted t_permits db uid UPDATE cond p = true →
  permits.closed_at (set p) ≠ None →
  (∃ e, update t_permits db uid cond set = Aborted e)
  ∧ after db (update t_permits db uid cond set) = db.
Proof.
  intros Hp Ht Hclosed.
  assert (∃ e, update t_permits db uid cond set = Aborted e) as [e He].
  { unfold update.
    destruct (all_of_aborted
      (write_row t_permits db uid UPDATE
         <$> (set <$> List.filter (targeted t_permits db uid UPDATE cond)
                        (tbl_permits db)))
      insufficient_privilege) as [e He].
    - apply list_elem_of_fmap. exists (set p). split.
      + unfold write_row, permitted. cbn [policies t_permits permits_policies].
        rewrite any_policy_one. unfold permits_update. rewrite holds_and.
        destruct (permits.closed_at (set p)); [|done]. cbn [sql_is_null holds].
        by rewrite andb_false_r.
      + apply list_elem_of_fmap_2, list_elem_of_In, filter_In.
        by rewrite <- list_elem_of_In.
    - exists e. cbn [rows t_permits]. by rewrite He. }
  split; [by exists e|]. by rewrite He.
Qed.

Lemma permit_close_through_update_aborts_witness :
  sample.open_permit ∈ tbl_permits sample.db
  ∧ targeted t_permits sample.db (Some (users.id sample.admin)) UPDATE
      (fun p => sql_eq (Some (permits.id p)) (Some 10%N)) sample.open_permit
    = true
  ∧ permits.closed_at (cases.close 7%Z sample.admin sample.open_permit) ≠ None
  ∧ after sample.db
      (update t_permits sample.db (Some (users.id sample.admin))
         (fun p => sql_eq (Some (permits.id p)) (Some 10%N))
         (cases.close 7%Z sample.admin))
    = sample.db.
Proof.
  assert (sample.open_permit ∈ tbl_permits sample.db) as Hp by in_list.
  assert (targeted t_permits sample.db (Some (users.id sample.admin)) UPDATE
            (fun p => sql_eq (Some (permits.id p)) (Some 10%N))
            sample.open_permit = true) as Ht by (vm_compute; reflexivity).
  assert (permits.closed_at (cases.close 7%Z sample.admin sample.open_permit)
          ≠ None) as Hc by discriminate.
  split; [done|]. split; [done|]. split; [done|].
  by apply (permit_close_through_update_aborts sample.db
              (Some (users.id sample.admin))
              (fun p => sql_eq (Some (permits.id p)) (Some 10%N))
              (cases.close 7%Z sample.admin) sample.open_permit).
Defined.




(** X7.  No policy of [activity_logs] is for UPDATE or DELETE: for every
    caller, an admin included, an UPDATE or a DELETE leaves every log entry
    as it was.  The log can only grow. *)
Theorem activity_logs_append_only (db : database) (uid : option uuid) :
  (∀ cond set, after db (update t_activity_logs db uid cond set) = db)
  ∧ (∀ cond, after db (delete t_activity_logs db uid cond) = db).
Proof.
  split; intros.
  - apply update_denied; [apply lawful_activity_logs|].
    intros r. by apply no_policy_permits_nothing.
  - apply delete_denied; [apply lawful_activity_logs|].
    intros r. by apply no_policy_permits_nothing.
Qed.

(** X9.  [regions] has a policy for SELECT only: for every caller an INSERT
    is an authorization error, and an UPDATE or a DELETE leaves the registry
    as it was. *)
Theorem regions_read_only (db : database) (uid : option uuid) :
  (∀ new, insert t_regions db uid new = Aborted insufficient_privilege)
  ∧ (∀ cond set, after db (update t_regions db uid cond set) = db)
  ∧ (∀ cond, after db (delete t_regions db uid cond) = db).
Proof.
  split; [|split]; intros.
  - apply insert_denied. by apply no_policy_permits_nothing.
  - apply update_denied; [apply lawful_regions|].
    intros r. by apply no_policy_permits_nothing.
  - apply delete_denied; [apply lawful_regions|].
    intros r. by apply no_policy_permits_nothing.
Qed.






(** X24.  Whoever may write a permit may read it: a permit that passes the
    insert, update or delete policy of [permits] for a caller passes the
    read policy for that caller.  No key of [users] is needed for it. *)
Theorem permit_writer_reads (db : database) (uid : option uuid) (c : command)
    (p : permits.row) :
  permitted t_permits db uid c p = true →
  permitted t_permits db uid SELECT p = true.
Proof.
  unfold permitted. destruct c; [done|..];
    cbn [policies t_permits permits_policies]; rewrite !any_policy_one;
    unfold permits_create, permits_update, permits_admin_delete,
      permits_view_in_regions;
    rewrite ?holds_and, ?andb_true_iff, !holds_exists, !existsb_elem_of.
  - intros (u & Hu & H). exists u. split; [done|].
    rewrite !holds_and, holds_or, holds_in, holds_contains_one, holds_eq in H.
    rewrite holds_and, holds_or, holds_in, holds_contains_one.
    apply andb_true_iff in H as [Hid [Hrole Hreg]%andb_true_iff].
    rewrite Hid, Hrole. by rewrite orb_true_r.
  - intros [(u & Hu & H) _]. exists u. split; [done|].
    rewrite !holds_and, holds_or, holds_in, holds_contains_one, holds_eq in H.
    rewrite holds_and, holds_or, holds_in, holds_contains_one.
    apply andb_true_iff in H as [Hid [Hrole Hreg]%andb_true_iff].
    rewrite Hid, Hrole. by rewrite orb_true_r.
  - intros (u & Hu & H). exists u. split; [done|].
    rewrite holds_and, holds_eq in H.
    rewrite holds_and, holds_or, holds_in, holds_contains_one.
    apply andb_true_iff in H as [Hid Hrole%bool_decide_eq_true].
    rewrite Hid, Hrole. by rewrite orb_true_r.
Qed.

Lemma permit_writer_reads_witness :
  permitted t_permits sample.db (Some (users.id sample.manager)) UPDATE
    sample.open_permit = true
  ∧ permitted t_permits sample.db (Some (users.id sample.manager)) SELECT
      sample.open_permit = true.
Proof.
  assert (permitted t_permits sample.db (Some (users.id sample.manager)) UPDATE
            sample.open_permit = true) as Hw by (vm_compute; reflexivity).
  split; [done|].
  exact (permit_writer_reads sample.db (Some (users.id sample.manager)) UPDATE
           sample.open_permit Hw).
Defined.

(** X25.  A caller who is not an admin cannot move a permit out of the
    caller's regions: an UPDATE that acts on a permit and would leave it in a
    region that is none of the caller's never commits, and the database
    stays as it was. *)
Theorem permit_update_stays_in_regions (db : database) (u : users.row)
    (cond : permits.row → sqlbool) (set : permits.row → permits.row)
    (p : permits.row) :
  users_pkey db → u ∈ tbl_users db → users.role u ≠ "admin" →
  p ∈ tbl_permits db →
  targeted t_permits db (Some (users.id u)) UPDATE cond p = true →
  Some (permits.region (set p)) ∉ users.region u →
  (∃ e, update t_permits db (Some (users.id u)) cond set = Aborted e)
  ∧ after db (update t_permits db (Some (users.id u)) cond set) = db.
Proof.
  intros Hkey Hu Hrole Hp Ht Hregion.
  assert (∃ e, update t_permits db (Some (users.id u)) cond set = Aborted e)
    as [e He].
  { unfold update.
    destruct (all_of_aborted
      (write_row t_permits db (Some (users.id u)) UPDATE
         <$> (set <$> List.filter
                        (targeted t_permits db (Some (users.id u)) UPDATE cond)
                        (tbl_permits db)))
      insufficient_privilege) as [e He].
    - apply list_elem_of_fmap. exists (set p). split.
      + unfold write_row, permitted. cbn [policies t_permits permits_policies].
        rewrite any_policy_one. unfold permits_update.
        rewrite holds_and, caller_may_write_permit by done.
        rewrite (bool_decide_eq_false_2 (Some _ ∈ _)) by done.
        rewrite (bool_decide_eq_false_2 (users.role u = "admin")) by done.
        by rewrite andb_false_r.
      + apply list_elem_of_fmap_2, list_elem_of_In, filter_In.
        by rewrite <- list_elem_of_In.
    - exists e. cbn [rows t_permits]. by rewrite He. }
  split; [by exists e|]. by rewrite He.
Qed.

Lemma permit_update_stays_in_regions_witness :
  users_pkey sample.db ∧ sample.manager ∈ tbl_users sample.db
  ∧ users.role sample.manager ≠ "admin"
  ∧ sample.open_permit ∈ tbl_permits sample.db
  ∧ targeted t_permits sample.db (Some (users.id sample.manager)) UPDATE
      (fun p => sql_eq (Some (permits.id p)) (Some 10%N)) sample.open_permit
    = true
  ∧ (Some (permits.region (cases.move "jeddah" sample.open_permit))
       ∉ users.region sample.manager)
  ∧ after sample.db
      (update t_permits sample.db (Some (users.id sample.manager))
         (fun p => sql_eq (Some (permits.id p)) (Some 10%N))
         (cases.move "jeddah"))
    = sample.db.
Proof.
  assert (sample.manager ∈ tbl_users sample.db) as Hu by in_list.
  assert (users.role sample.manager ≠ "admin") as Hr by discriminate.
  assert (sample.open_permit ∈ tbl_permits sample.db) as Hp by in_list.
  assert (targeted t_permits sample.db (Some (users.id sample.manager)) UPDATE
            (fun p => sql_eq (Some (permits.id p)) (Some 10%N))
            sample.open_permit = true) as Ht by (vm_compute; reflexivity).
  assert (Some (permits.region (cases.move "jeddah" sample.open_permit))
            ∉ users.region sample.manager) as Hg.
  { intros Hin. apply list_elem_of_singleton in Hin. discriminate Hin. }
  split; [exact sample_users_pkey|]. do 5 (split; [done|]).
  by apply (permit_update_stays_in_regions sample.db sample.manager
              (fun p => sql_eq (Some (permits.id p)) (Some 10%N))
              (cases.move "jeddah") sample.open_permit sample_users_pkey).
Defined.

(* ===================================================================== *)
(** ** The seeds and the views *)
(* ===================================================================== *)

(** X12.  When the identifiers drawn are distinct, the database that the
    migration leaves satisfies every key and reference, the admin it
    inserts passes the two CHECK constraints of [users] that were added
    before, and the regions of the admin are the codes of the registry, in
    another order. *)
Theorem migration_consistent (gen_random_uuid : nat → uuid)
    (now : timestamptz) :
  NoDup (gen_random_uuid <$> seq 0 24) →
  integrity (migrated gen_random_uuid now) = Committed ()
  ∧ check_row t_users (migrated gen_random_uuid now)
      (default_admin gen_random_uuid now) = Committed ()
  ∧ users.region (default_admin gen_random_uuid now)
    ≡ₚ (fun r => Some (regions.code r)) <$> seed_regions gen_random_uuid now.
Proof.
  intros Hgen.
  change (seq 0 24) with (seq 0 4 ++ (seq 4 19 ++ [23])) in Hgen.
  rewrite !fmap_app in Hgen.
  apply NoDup_app in Hgen as (Hroles & _ & Hgen).
  apply NoDup_app in Hgen as (Hregions & _ & _).
  split; [|split].
  - apply integrity_committed.
    cbn [migrated tbl_users tbl_permits tbl_activity_logs tbl_role_permissions
         tbl_regions fmap list_fmap omap list_omap].
    repeat split; try done; try by_evaluation;
      try apply NoDup_nil_2; try apply NoDup_singleton;
      try (intros x Hx; by apply elem_of_nil in Hx).
    apply (proj1 (references_committed "users_role_fkey" _ _)).
    vm_compute. reflexivity.
  - vm_compute. reflexivity.
  - apply (bool_decide_unpack _). vm_compute. exact I.
Qed.

Lemma migration_consistent_witness :
  NoDup (sample.ids <$> seq 0 24)
  ∧ integrity (migrated sample.ids 0%Z) = Committed ().
Proof.
  assert (NoDup (sample.ids <$> seq 0 24)) as Hgen by by_evaluation.
  split; [done|].
  by destruct (migration_consistent sample.ids 0%Z Hgen) as [H _].
Defined.

Lemma elem_of_insert_on_conflict_keys {R K} `{EqDecision K} (key : R → K)
    (resolve : R → R → R) (tbl : list R) (excluded : R) :
  (∀ r, key (resolve r excluded) = key r) →
  key <$> insert_on_conflict key resolve tbl excluded
  = if bool_decide (key excluded ∈ key <$> tbl)
    then key <$> tbl else (key <$> tbl) ++ [key excluded].
Proof.
  intros Hres. unfold insert_on_conflict. case_bool_decide as Hin.
  - rewrite <- list_fmap_compose. apply list_fmap_ext. intros i r _. cbn.
    by case_bool_decide.
  - by rewrite fmap_app.
Qed.

(** X13.  [INSERT ... ON CONFLICT (key)] with an action that leaves the key
    alone never makes a second row for a key: the keys stay distinct, a new
    key goes last and a key that is taken adds no row; with [DO NOTHING] the
    table is then as it was. *)
Theorem on_conflict_keeps_keys_unique {R K} `{EqDecision K} (key : R → K)
    (resolve : R → R → R) (tbl : list R) (excluded : R) :
  (∀ r, key (resolve r excluded) = key r) →
  NoDup (key <$> tbl) →
  NoDup (key <$> insert_on_conflict key resolve tbl excluded)
  ∧ (key excluded ∈ key <$> tbl →
     length (insert_on_conflict key resolve tbl excluded) = length tbl
     ∧ insert_on_conflict key do_nothing tbl excluded = tbl)
  ∧ (key excluded ∉ key <$> tbl →
     insert_on_conflict key resolve tbl excluded = tbl ++ [excluded]).
Proof.
  intros Hres Hkeys. split; [|split].
  - rewrite elem_of_insert_on_conflict_keys by done. case_bool_decide; [done|].
    apply NoDup_app. repeat split; [done| |apply NoDup_singleton].
    intros k Hk Heq%list_elem_of_singleton. by subst k.
  - intros Hin. unfold insert_on_conflict. rewrite bool_decide_eq_true_2 by done.
    split; [by rewrite length_fmap|].
    rewrite <- (list_fmap_id tbl) at 2. apply list_fmap_ext. intros i r _.
    unfold do_nothing. by case_bool_decide.
  - intros Hin. unfold insert_on_conflict. by rewrite bool_decide_eq_false_2.
Qed.

Lemma on_conflict_keeps_keys_unique_witness :
  (∀ r : regions.row, regions.code (do_nothing r (regions.mk 0%N "riyadh" "Riyadh" "Ar-Riyad" None))
                      = regions.code r)
  ∧ NoDup (regions.code <$> seed_regions sample.ids 0%Z)
  ∧ insert_on_conflict regions.code do_nothing (seed_regions sample.ids 0%Z)
      (regions.mk 0%N "riyadh" "Riyadh" "Ar-Riyad" None)
    = seed_regions sample.ids 0%Z.
Proof.
  assert (NoDup (regions.code <$> seed_regions sample.ids 0%Z)) as Hkeys
    by by_evaluation.
  split; [done|]. split; [done|].
  destruct (on_conflict_keeps_keys_unique regions.code do_nothing
              (seed_regions sample.ids 0%Z)
              (regions.mk 0%N "riyadh" "Riyadh" "Ar-Riyad" None)
              (fun r => eq_refl) Hkeys) as (_ & H & _).
  apply H. by_evaluation.
Defined.

(** The groups of [GROUP BY]: their keys are distinct, none is empty, each
    holds the rows of its key, and every row is in one group. *)
Lemma group_by_keys {R K} `{EqDecision K} (key : R → K) (rs : list R) :
  NoDup (fst <$> group_by key rs).
Proof.
  assert (fst <$> group_by key rs = remove_dups (key <$> rs)) as ->.
  { unfold group_by. rewrite <- list_fmap_compose.
    etrans; [|apply list_fmap_id]. by apply list_fmap_ext. }
  apply NoDup_remove_dups.
Qed.

Lemma group_by_group {R K} `{EqDecision K} (key : R → K) (rs : list R)
    (g : K * list R) :
  g ∈ group_by key rs →
  g.2 = List.filter (fun r => bool_decide (key r = g.1)) rs ∧ g.2 ≠ [].
Proof.
  unfold group_by. intros (k & -> & Hk)%list_elem_of_fmap. cbn [fst snd].
  split; [done|].
  apply elem_of_remove_dups, list_elem_of_fmap in Hk as (r & -> & Hr).
  intros Hnil.
  assert (r ∈ List.filter (fun r' => bool_decide (key r' = key r)) rs) as Hin.
  { apply list_elem_of_In, filter_In. rewrite <- list_elem_of_In.
    by rewrite bool_decide_eq_true_2. }
  rewrite Hnil in Hin. by apply elem_of_nil in Hin.
Qed.

Lemma count_key_once {K} `{EqDecision K} (ks : list K) (k : K) :
  NoDup ks → k ∈ ks →
  sum_list_with (fun k' => if bool_decide (k = k') then 1 else 0) ks = 1.
Proof.
  induction ks as [|k0 ks IH]; intros Hdup Hin; [by apply elem_of_nil in Hin|].
  apply NoDup_cons in Hdup as [Hk0 Hdup]. cbn [sum_list_with].
  case_bool_decide as Heq.
  - subst k0. f_equal. clear IH Hin Hdup.
    induction ks as [|k1 ks IH]; [done|]. cbn [sum_list_with].
    rewrite bool_decide_eq_false_2.
    + apply IH. intros Hin. apply Hk0. by right.
    + intros ->. apply Hk0. by left.
  - apply elem_of_cons in Hin as [->|Hin]; [done|]. by rewrite IH.
Qed.

Lemma group_sizes {R K} `{EqDecision K} (key : R → K) (rs : list R)
    (ks : list K) :
  NoDup ks → (∀ r, r ∈ rs → key r ∈ ks) →
  sum_list_with
    (fun k => length (List.filter (fun r => bool_decide (key r = k)) rs)) ks
  = length rs.
Proof.
  intros Hdup. induction rs as [|r rs IH]; intros Hin.
  - clear. induction ks as [|k ks IHks]; [done|].
    cbn [sum_list_with]. by rewrite IHks.
  - assert (sum_list_with
              (fun k => length (List.filter (fun r => bool_decide (key r = k))
                                  (r :: rs))) ks
            = sum_list_with (fun k => if bool_decide (key r = k) then 1 else 0) ks
              + sum_list_with
                  (fun k => length (List.filter
                                      (fun r => bool_decide (key r = k)) rs)) ks)
      as ->.
    { clear. induction ks as [|k ks IHks]; [done|]. cbn [sum_list_with].
      rewrite IHks. cbn [List.filter]. case_bool_decide; cbn [length]; lia. }
    rewrite count_key_once by (done || apply Hin; by left).
    rewrite IH by (intros r' Hr'; apply Hin; by right). done.
Qed.

Lemma sum_list_with_fmap_compose {A B} (f : B → nat) (g : A → B) (l : list A) :
  sum_list_with f (g <$> l) = sum_list_with (f ∘ g) l.
Proof. induction l as [|x l IH]; [done|]. cbn. by rewrite IH. Qed.

Lemma group_by_sizes {R K} `{EqDecision K} (key : R → K) (rs : list R) :
  sum_list_with (fun g => length g.2) (group_by key rs) = length rs.
Proof.
  unfold group_by. rewrite sum_list_with_fmap_compose.
  apply (group_sizes key rs (remove_dups (key <$> rs))).
  - apply NoDup_remove_dups.
  - intros r Hr. apply elem_of_remove_dups. by apply list_elem_of_fmap_2.
Qed.

(** [COUNT] of a [CASE] on a condition and on its negation share the rows
    between them when the condition is never NULL. *)
Lemma count_case_split {R} (cond : R → sqlbool) (rs : list R) :
  (∀ r, cond r ≠ None) →
  sql_count (fun r => sql_case (cond r) 1%Z) rs
  + sql_count (fun r => sql_case (sql_not (cond r)) 1%Z) rs
  = length rs.
Proof.
  intros Hnn. unfold sql_count, sql_case.
  induction rs as [|r rs IH]; [done|]. cbn [List.filter].
  specialize (Hnn r). destruct (cond r) as [[]|]; [| |done];
    cbn; rewrite <- IH; lia.
Qed.

(** X14.  In the view [permit_statistics] every row counts at least one
    permit, its active and its closed permits add up to its total, no two
    rows are for the same region and request type, and the totals add up to
    the number of permits. *)
Theorem permit_statistics_adds_up (db : database) :
  Forall (fun r =>
            (0 < permit_statistics.total_permits r)%nat
            ∧ permit_statistics.active_permits r
              + permit_statistics.closed_permits r
              = permit_statistics.total_permits r)
         (permit_statistics.view db)
  ∧ NoDup ((fun r => (permit_statistics.region r,
                      permit_statistics.request_type r))
             <$> permit_statistics.view db)
  ∧ sum_list_with permit_statistics.total_permits (permit_statistics.view db)
    = length (tbl_permits db).
Proof.
  unfold permit_statistics.view. split; [|split].
  - apply Forall_fmap, Forall_forall. intros g Hg.
    apply group_by_group in Hg as [_ Hne].
    cbn [compose permit_statistics.total_permits
         permit_statistics.active_permits permit_statistics.closed_permits].
    split.
    + destruct g.2; [done|]. cbn. lia.
    + by apply (count_case_split
                  (fun p => sql_is_null (permits.closed_at p))).
  - rewrite <- list_fmap_compose.
    erewrite list_fmap_ext; [apply group_by_keys|].
    by intros i [[] ?] _.
  - rewrite sum_list_with_fmap_compose.
    apply (group_by_sizes
             (fun p => (permits.region p, permits.request_type p))).
Qed.

Lemma sql_max_none {R} (expr : R → option Z) (rs : list R) :
  sql_max expr rs = None ↔ Forall (fun r => expr r = None) rs.
Proof.
  induction rs as [|r rs IH]; cbn [sql_max foldr].
  - by rewrite Forall_nil.
  - rewrite Forall_cons, <- IH. fold (sql_max expr rs).
    destruct (expr r), (sql_max expr rs); split; try done;
      try (by intros [? ?]); by intros _.
Qed.

Lemma sql_max_upper {R} (expr : R → option Z) (rs : list R) (m : Z) :
  sql_max expr rs = Some m →
  (∃ r, r ∈ rs ∧ expr r = Some m)
  ∧ ∀ r x, r ∈ rs → expr r = Some x → (x ≤ m)%Z.
Proof.
  revert m. induction rs as [|r rs IH]; intros m; [done|].
  cbn [sql_max foldr]. fold (sql_max expr rs).
  destruct (expr r) as [a|] eqn:Ha, (sql_max expr rs) as [b|] eqn:Hb.
  - intros [= <-]. destruct (IH b eq_refl) as [(r0 & Hr0 & He0) Hub]. split.
    + destruct (Z.max_spec a b) as [[_ ->]|[_ ->]].
      * exists r0. split; [by right|done].
      * exists r. split; [by left|done].
    + intros r' x [->|Hr']%elem_of_cons Hx.
      * rewrite Ha in Hx. injection Hx as <-. lia.
      * specialize (Hub r' x Hr' Hx). lia.
  - intros [= <-]. split; [exists r; split; [by left|done]|].
    intros r' x [->|Hr']%elem_of_cons Hx.
    + rewrite Ha in Hx. by injection Hx as <-.
    + apply sql_max_none in Hb. rewrite Forall_forall in Hb.
      rewrite (Hb r' Hr') in Hx. discriminate Hx.
  - intros [= <-]. destruct (IH b eq_refl) as [(r0 & Hr0 & He0) Hub]. split.
    + exists r0. split; [by right|done].
    + intros r' x [->|Hr']%elem_of_cons Hx; [congruence|by eapply Hub].
  - done.
Qed.

Lemma sql_count_zero {R A} (expr : R → option A) (rs : list R) :
  sql_count expr rs = 0 ↔ Forall (fun r => expr r = None) rs.
Proof.
  unfold sql_count. induction rs as [|r rs IH]; cbn [List.filter].
  - by rewrite Forall_nil.
  - rewrite Forall_cons, <- IH. destruct (expr r) as [a|].
    + rewrite bool_decide_eq_true_2 by by eexists. cbn. split; [lia|by intros []].
    + rewrite bool_decide_eq_false_2 by by intros []. tauto.
Qed.

Lemma sql_count_le {R A} (expr : R → option A) (rs : list R) :
  (sql_count expr rs ≤ length rs)%nat.
Proof.
  unfold sql_count. induction rs as [|r rs IH]; [done|]. cbn [List.filter].
  destruct (bool_decide _); cbn; lia.
Qed.

(** X15.  In the view [user_statistics] every row counts at least one
    user and no more active users than users; its last activity is NULL
    exactly when it counts no active user, and otherwise it is the last
    login of a user with the row's role and no user with that role logged in
    later.  No two rows are for the same role, and the counts add up to the
    number of users. *)
Theorem user_statistics_adds_up (db : database) :
  Forall (fun r =>
            (0 < user_statistics.user_count r)%nat
            ∧ (user_statistics.active_users r
               ≤ user_statistics.user_count r)%nat
            ∧ (user_statistics.last_activity r = None
               ↔ user_statistics.active_users r = 0)
            ∧ ∀ m, user_statistics.last_activity r = Some m →
                (∃ u, u ∈ tbl_users db
                      ∧ users.role u = user_statistics.role r
                      ∧ users.last_login u = Some m)
                ∧ ∀ u x, u ∈ tbl_users db →
                    users.role u = user_statistics.role r →
                    users.last_login u = Some x → (x ≤ m)%Z)
         (user_statistics.view db)
  ∧ NoDup (user_statistics.role <$> user_statistics.view db)
  ∧ sum_list_with user_statistics.user_count (user_statistics.view db)
    = length (tbl_users db).
Proof.
  unfold user_statistics.view. split; [|split].
  - apply Forall_fmap, Forall_forall. intros g Hg.
    apply group_by_group in Hg as [Hg Hne].
    cbn [compose user_statistics.user_count user_statistics.active_users
         user_statistics.last_activity user_statistics.role].
    assert (∀ u, sql_case (sql_not (sql_is_null (users.last_login u))) 1%Z = None
                 ↔ users.last_login u = None) as Hcase.
    { intros u. by destruct (users.last_login u). }
    assert (∀ u, u ∈ g.2 ↔ u ∈ tbl_users db ∧ users.role u = g.1) as Hin.
    { intros u. rewrite Hg, list_elem_of_In, filter_In, <- list_elem_of_In.
      by rewrite bool_decide_eq_true. }
    repeat split.
    + destruct g.2; [done|]. cbn. lia.
    + apply sql_count_le.
    + rewrite sql_max_none, sql_count_zero. intros H.
      eapply Forall_impl; [done|]. intros u. by rewrite Hcase.
    + rewrite sql_max_none, sql_count_zero. intros H.
      eapply Forall_impl; [done|]. intros u. by rewrite Hcase.
    + apply sql_max_upper in H as [(u & Hu & Hm) _].
      exists u. apply Hin in Hu as [? ?]. done.
    + intros u x Hu Hrole Hx.
      apply sql_max_upper in H as [_ Hub]. apply (Hub u x); [|done].
      by apply Hin.
  - rewrite <- list_fmap_compose.
    erewrite list_fmap_ext; [apply group_by_keys|].
    by intros i [] _.
  - rewrite sum_list_with_fmap_compose.
    apply (group_by_sizes users.role).
Qed.

(* ===================================================================== *)
(** ** The list of permits and the permit numbers *)
(* ===================================================================== *)

Lemma pad_length (n : nat) (c : ascii) (s : string) :
  String.length (pad n c s) = n + String.length s.
Proof. induction n as [|n IH]; [done|]. cbn. by rewrite IH. Qed.

(** Leading zeros do not change the number that a string writes. *)
Lemma number_of_pad (n : nat) (s : string) :
  number_of (pad n "0" s) = number_of s.
Proof.
  unfold number_of. induction n as [|n IH]; [done|].
  rewrite <- IH. cbn [pad NilEmpty.uint_of_string].
  by destruct (NilEmpty.uint_of_string (pad n "0" s)).
Qed.

Lemma number_of_toString (n : N) : number_of (toString n) = Some n.
Proof.
  unfold number_of, toString. rewrite NilEmpty.usu. cbn.
  by rewrite DecimalN.Unsigned.of_to.
Qed.

Section usePermitsFacts.
Context {Permit : Type} (permit_id : Permit → string).

(** X16.  A generated permit number is [MHV], the year and a sequence part
    of at least six characters that writes the number of permits in the
    list plus one; in one year, lists of different lengths get different
    numbers. *)
Theorem generatePermitNumber_sequence (year : N) (permits permits' : list Permit) :
  (∃ sequence,
     generatePermitNumber Permit year permits
     = String.append "MHV" (String.append (toString year) sequence)
     ∧ (6 ≤ String.length sequence)%nat
     ∧ number_of sequence = Some (N.of_nat (length permits + 1)))
  ∧ (generatePermitNumber Permit year permits
     = generatePermitNumber Permit year permits' →
     length permits = length permits').
Proof.
  assert (∀ n, number_of (padStart 6 "0" (toString n)) = Some n) as Hnum.
  { intros n. unfold padStart. by rewrite number_of_pad, number_of_toString. }
  split.
  - eexists. split; [done|]. split; [|apply Hnum].
    unfold padStart. rewrite pad_length. lia.
  - unfold generatePermitNumber. intros Heq.
    assert (padStart 6 "0" (toString (N.of_nat (length permits + 1)))
            = padStart 6 "0" (toString (N.of_nat (length permits' + 1))))
      as Hpad.
    { cbn [String.append] in Heq. injection Heq as Heq.
      revert Heq. generalize (toString year). intros y.
      induction y as [|c y IH]; cbn [String.append]; [done|].
      intros [= ?]. by apply IH. }
    apply (f_equal number_of) in Hpad. rewrite !Hnum in Hpad.
    injection Hpad as Hpad. lia.
Qed.

Lemma deletePermit_once (permitId : string) (prev : list Permit) :
  NoDup (permit_id <$> prev) → permitId ∈ permit_id <$> prev →
  S (length (deletePermit Permit permit_id permitId prev)) = length prev.
Proof.
  unfold deletePermit. induction prev as [|p prev IH]; intros Hdup Hin.
  - by apply elem_of_nil in Hin.
  - rewrite fmap_cons in Hdup, Hin. apply NoDup_cons in Hdup as [Hp Hdup].
    cbn [List.filter]. case_bool_decide as Heq; cbn [negb length].
    + f_equal. rewrite filter_all; [done|]. intros r Hr.
      apply negb_true_iff, bool_decide_eq_false. intros Hr'.
      apply Hp. rewrite Heq, <- Hr'. by apply list_elem_of_fmap_2.
    + f_equal. apply IH; [done|]. by apply elem_of_cons in Hin as [?|?].
Qed.

(** X17.  The number depends on the length of the list only: after a
    permit was added and another one, which is in the list once, was
    deleted, the next number generated is the number generated before the
    permit was added. *)
Theorem generatePermitNumber_repeats (year : N) (newPermit : Permit)
    (permitId : string) (prev : list Permit) :
  NoDup (permit_id <$> prev) → permitId ∈ permit_id <$> prev →
  permit_id newPermit ≠ permitId →
  generatePermitNumber Permit year
    (deletePermit Permit permit_id permitId (addPermit Permit newPermit prev))
  = generatePermitNumber Permit year prev.
Proof.
  intros Hdup Hin Hne. unfold generatePermitNumber. do 5 f_equal.
  pose proof (deletePermit_once permitId prev Hdup Hin) as Hlen.
  unfold addPermit, deletePermit in *. cbn [List.filter].
  rewrite bool_decide_eq_false_2 by done. cbn [negb length]. lia.
Qed.

(** X18.  After [deletePermit] the list holds the permits with another id,
    in their order, and none with the id; deleting an id that no permit has
    changes nothing; and deleting a permit right after it was added, when
    its id was new, gives the list back. *)
Theorem deletePermit_removes (permitId : string) (newPermit : Permit)
    (prev : list Permit) :
  (∀ p, p ∈ deletePermit Permit permit_id permitId prev
        ↔ p ∈ prev ∧ permit_id p ≠ permitId)
  ∧ deletePermit Permit permit_id permitId prev `sublist_of` prev
  ∧ (permitId ∉ permit_id <$> prev →
     deletePermit Permit permit_id permitId prev = prev)
  ∧ (permit_id newPermit ∉ permit_id <$> prev →
     deletePermit Permit permit_id (permit_id newPermit)
       (addPermit Permit newPermit prev) = prev).
Proof.
  assert (∀ i, i ∉ permit_id <$> prev →
            deletePermit Permit permit_id i prev = prev) as Hmiss.
  { intros i Hi. apply filter_all. intros r Hr.
    apply negb_true_iff, bool_decide_eq_false. intros <-.
    apply Hi. by apply list_elem_of_fmap_2. }
  split; [|split; [|split]].
  - intros p. unfold deletePermit.
    rewrite list_elem_of_In, filter_In, <- list_elem_of_In,
      negb_true_iff, bool_decide_eq_false. tauto.
  - unfold deletePermit. induction prev as [|p prev IH]; [done|].
    cbn [List.filter]. destruct (negb _).
    + apply sublist_skip, IH. intros i Hi. apply filter_all. intros r Hr.
      apply negb_true_iff, bool_decide_eq_false. intros <-.
      apply Hi. by apply list_elem_of_fmap_2.
    + apply sublist_cons, IH. intros i Hi. apply filter_all. intros r Hr.
      apply negb_true_iff, bool_decide_eq_false. intros <-.
      apply Hi. by apply list_elem_of_fmap_2.
  - apply Hmiss.
  - intros Hnew. unfold addPermit, deletePermit. cbn [List.filter].
    rewrite bool_decide_eq_true_2 by done. cbn [negb]. by apply Hmiss.
Qed.

(** X19.  [updatePermit] keeps the length of the list; an id that no permit
    has changes nothing; permits with another id stay where they are; and
    when the permit of the answer has the id that was asked for, every
    place keeps its id, and the answer is in the list if the id was. *)
Theorem updatePermit_replaces (permitId : string) (updatedPermit : Permit)
    (prev : list Permit) :
  length (updatePermit Permit permit_id permitId updatedPermit prev)
  = length prev
  ∧ (permitId ∉ permit_id <$> prev →
     updatePermit Permit permit_id permitId updatedPermit prev = prev)
  ∧ (∀ i p, prev !! i = Some p → permit_id p ≠ permitId →
       updatePermit Permit permit_id permitId updatedPermit prev !! i = Some p)
  ∧ (∀ i p, prev !! i = Some p → permit_id p = permitId →
       updatePermit Permit permit_id permitId updatedPermit prev !! i
       = Some updatedPermit)
  ∧ (permit_id updatedPermit = permitId →
     permit_id <$> updatePermit Permit permit_id permitId updatedPermit prev
     = permit_id <$> prev).
Proof.
  unfold updatePermit. split; [|split; [|split; [|split]]].
  - apply length_fmap.
  - intros Hmiss. etrans; [|apply list_fmap_id]. apply list_fmap_ext.
    intros i p Hp. rewrite bool_decide_eq_false_2; [done|].
    intros <-. apply Hmiss. apply list_elem_of_fmap_2.
    by apply list_elem_of_lookup_2 in Hp.
  - intros i p Hp Hne. rewrite list_lookup_fmap, Hp. cbn.
    by rewrite bool_decide_eq_false_2.
  - intros i p Hp Heq. rewrite list_lookup_fmap, Hp. cbn.
    by rewrite bool_decide_eq_true_2.
  - intros Hid. rewrite <- list_fmap_compose. apply list_fmap_ext.
    intros i p _. cbn. case_bool_decide; congruence.
Qed.
End usePermitsFacts.

Lemma generatePermitNumber_sequence_witness :
  generatePermitNumber string 2025 ["a"; "b"]
  = generatePermitNumber string 2025 ["c"; "d"]
  ∧ length ["a"; "b"] = length ["c"; "d"].
Proof.
  assert (generatePermitNumber string 2025 ["a"; "b"]
          = generatePermitNumber string 2025 ["c"; "d"]) as H by reflexivity.
  split; [done|].
  by apply (generatePermitNumber_sequence 2025 ["a"; "b"] ["c"; "d"]).
Defined.

Lemma generatePermitNumber_repeats_witness :
  NoDup (id <$> ["p1"; "p2"]) ∧ "p1" ∈ id <$> ["p1"; "p2"] ∧ id "p3" ≠ "p1"
  ∧ generatePermitNumber string 2025
      (deletePermit string id "p1" (addPermit string "p3" ["p1"; "p2"]))
    = generatePermitNumber string 2025 ["p1"; "p2"].
Proof.
  assert (NoDup (id <$> ["p1"; "p2"])) as Hdup by by_evaluation.
  assert ("p1" ∈ id <$> ["p1"; "p2"]) as Hin by by_evaluation.
  assert (id "p3" ≠ "p1") as Hne by discriminate.
  split; [done|]. split; [done|]. split; [done|].
  apply (generatePermitNumber_repeats id 2025 "p3" "p1" ["p1"; "p2"] Hdup Hin Hne).
Defined.

Lemma deletePermit_removes_witness :
  (id "p3" ∉ id <$> ["p1"; "p2"])
  ∧ deletePermit string id (id "p3") (addPermit string "p3" ["p1"; "p2"])
    = ["p1"; "p2"].
Proof.
  assert (id "p3" ∉ id <$> ["p1"; "p2"]) as Hnew by by_evaluation.
  split; [done|].
  by apply (deletePermit_removes id "p3" "p3" ["p1"; "p2"]).
Defined.

Lemma updatePermit_replaces_witness :
  ("p9" ∉ id <$> ["p1"; "p2"])
  ∧ updatePermit string id "p9" "p9" ["p1"; "p2"] = ["p1"; "p2"].
Proof.
  assert ("p9" ∉ id <$> ["p1"; "p2"]) as Hmiss by by_evaluation.
  split; [done|].
  by apply (updatePermit_replaces id "p9" "p9" ["p1"; "p2"]).
Defined.

(* ===================================================================== *)
(** ** The keys and the properties of a converted object *)
(* ===================================================================== *)

Lemma snakeKey_no_upper (key : string) : has_upper (snakeKey key) = false.
Proof.
  induction key as [|c key IH]; [done|]. cbn [snakeKey].
  destruct (is_upper c) eqn:Hc; cbn [has_upper].
  - change (is_upper "_") with false.
    by rewrite toLowerCase_not_upper, IH.
  - by rewrite Hc, IH.
Qed.

(** X20.  [snakeKey] leaves a key as it is exactly when the key has no
    letter of [[A-Z]]. *)
Theorem snakeKey_fixes_lower (key : string) :
  snakeKey key = key ↔ has_upper key = false.
Proof.
  split.
  - intros <-. apply snakeKey_no_upper.
  - induction key as [|c key IH]; [done|]. cbn [has_upper snakeKey].
    intros [Hc Hk]%orb_false_iff. by rewrite Hc, IH.
Qed.

Lemma overwrite_Forall (P : string * value → Prop) (k : string) (v : value)
    (props : list (string * value)) :
  P (k, v) → Forall P props → Forall P (overwrite k v props).
Proof.
  intros Hv. induction 1 as [|[k' v'] props Hkv Hprops IH]; [done|].
  cbn [overwrite]. case_bool_decide; by constructor.
Qed.

Lemma define_Forall (P : string * value → Prop) (k : string) (v : value)
    (props : list (string * value)) :
  P (k, v) → Forall P props → Forall P (define k v props).
Proof.
  intros Hv Hprops. unfold define. destruct (array_index k) as [n|].
  - rewrite insert_index_perm. by constructor.
  - apply Forall_app. split; [done|]. by constructor.
Qed.

Lemma obj_set_keys_in (f : string → bool)
    (acc : prototype value * list (string * value)) (k : string) (v : value) :
  f k = true → all_keys f v = true → keys_in f acc →
  keys_in f (obj_set acc k v).
Proof.
  intros Hk Hv [Hproto Hprops]. unfold obj_set.
  case_bool_decide; [|destruct (_ && _)]; split; cbn [fst snd]; try done.
  - by apply overwrite_Forall.
  - unfold set_prototype. by destruct v.
  - by apply define_Forall.
Qed.

Lemma all_keys_object (f : string → bool) (proto : prototype value)
    (props : list (string * value)) :
  all_keys f (VObject proto props) = true ↔ keys_in f (proto, props).
Proof.
  cbn [all_keys]. unfold keys_in. cbn [fst snd].
  rewrite andb_true_iff, forallb_forall, Forall_forall.
  split; intros [Hp Hprops]; (split; [by destruct proto|]).
  - intros kv Hkv. apply andb_true_iff, Hprops. by apply list_elem_of_In.
  - intros kv Hkv. apply andb_true_iff, Hprops. by apply list_elem_of_In.
Qed.

(** X21.  No key of an object in the result of [toSnakeCase] has a letter
    of [[A-Z]], at any depth and whatever the value converted. *)
Theorem toSnakeCase_keys_lower (v : value) :
  all_keys (fun k => negb (has_upper k)) (toSnakeCase v) = true.
Proof.
  induction v as [| | | | |elems IH|proto props _ IH] using value_ind';
    try done.
  - cbn [toSnakeCase all_keys]. apply forallb_forall. intros x Hx.
    apply in_map_iff in Hx as (y & <- & Hy).
    rewrite Forall_forall in IH. by apply IH, list_elem_of_In.
  - cbn [toSnakeCase].
    assert (keys_in (fun k => negb (has_upper k))
              (fold_left
                 (fun acc kv => obj_set acc (snakeKey kv.1) (toSnakeCase kv.2))
                 props (ObjectPrototype, []))) as Hacc.
    { assert (keys_in (fun k => negb (has_upper k)) (ObjectPrototype, []))
        as Hnil by (split; [done | constructor]).
      revert Hnil. generalize (@ObjectPrototype value, @nil (string * value)).
      induction IH as [|kv props Hkv _ IHprops]; intros acc Hacc; [done|].
      cbn [fold_left]. apply IHprops, obj_set_keys_in; [|done..].
      by rewrite snakeKey_no_upper. }
    apply all_keys_object. by destruct (fold_left _ _ _).
Qed.

Lemma obj_get_cons (k0 k : string) (v0 : value)
    (props : list (string * value)) :
  obj_get ((k0, v0) :: props) k
  = if bool_decide (k = k0) then Some v0 else obj_get props k.
Proof.
  unfold obj_get. cbn [List.find fst].
  rewrite (bool_decide_ext (k0 = k) (k = k0)) by done. by case_bool_decide.
Qed.

Lemma obj_get_fresh (k : string) (props : list (string * value)) :
  k ∉ props.*1 → obj_get props k = None.
Proof.
  induction props as [|[k0 v0] props IH]; intros Hin; [done|].
  rewrite fmap_cons in Hin. apply not_elem_of_cons in Hin as [Hk Hin].
  rewrite obj_get_cons, bool_decide_eq_false_2 by done. by apply IH.
Qed.

Lemma obj_get_overwrite (k k' : string) (v : value)
    (props : list (string * value)) :
  k ∈ props.*1 →
  obj_get (overwrite k v props) k'
  = if bool_decide (k' = k) then Some v else obj_get props k'.
Proof.
  induction props as [|[k0 v0] props IH]; intros Hin.
  - by apply elem_of_nil in Hin.
  - cbn [overwrite]. destruct (decide (k0 = k)) as [->|H0].
    + rewrite bool_decide_eq_true_2 by done. rewrite !obj_get_cons.
      by destruct (bool_decide (k' = k)).
    + rewrite bool_decide_eq_false_2 by done. rewrite !obj_get_cons.
      rewrite fmap_cons in Hin. apply elem_of_cons in Hin as [Hin|Hin];
        [by destruct H0|].
      rewrite IH by done.
      destruct (decide (k' = k0)) as [->|H1].
      * by rewrite bool_decide_eq_true_2, bool_decide_eq_false_2.
      * by rewrite (bool_decide_eq_false_2 (k' = k0)).
Qed.

Lemma obj_get_insert_index (n : N) (k k' : string) (v : value)
    (props : list (string * value)) :
  k ∉ props.*1 →
  obj_get (insert_index n k v props) k'
  = if bool_decide (k' = k) then Some v else obj_get props k'.
Proof.
  induction props as [|[k0 v0] props IH]; intros Hin.
  - cbn [insert_index]. by rewrite obj_get_cons.
  - rewrite fmap_cons in Hin. apply not_elem_of_cons in Hin as [Hk Hin].
    cbn [insert_index].
    destruct (array_index k0); [|by rewrite obj_get_cons].
    destruct (n <? _)%N; [by rewrite obj_get_cons|].
    rewrite !obj_get_cons, IH by done.
    destruct (decide (k' = k0)) as [->|H1].
    + by rewrite bool_decide_eq_true_2, bool_decide_eq_false_2.
    + by rewrite (bool_decide_eq_false_2 (k' = k0)).
Qed.

Lemma obj_get_app (props props' : list (string * value)) (k : string) :
  obj_get (props ++ props') k
  = match obj_get props k with
    | Some v => Some v
    | None => obj_get props' k
    end.
Proof.
  unfold obj_get. induction props as [|[k0 v0] props IH]; [done|].
  cbn [app List.find fst]. by case_bool_decide.
Qed.

Lemma obj_get_define (k k' : string) (v : value)
    (props : list (string * value)) :
  k ∉ props.*1 →
  obj_get (define k v props) k'
  = if bool_decide (k' = k) then Some v else obj_get props k'.
Proof.
  intros Hin. unfold define. destruct (array_index k) as [n|].
  - by apply obj_get_insert_index.
  - rewrite obj_get_app. case_bool_decide as Hk.
    + subst k'. rewrite obj_get_fresh by done.
      unfold obj_get. cbn. by rewrite bool_decide_eq_true_2.
    + destruct (obj_get props k'); [done|].
      unfold obj_get. cbn. by rewrite bool_decide_eq_false_2.
Qed.

Lemma obj_get_obj_set (acc : prototype value * list (string * value))
    (k k' : string) (v : value) :
  k ≠ "__proto__" →
  obj_get (obj_set acc k v).2 k'
  = if bool_decide (k' = k) then Some v else obj_get acc.2 k'.
Proof.
  intros Hk. unfold obj_set. case_bool_decide as Hin; cbn [snd].
  - by apply obj_get_overwrite.
  - rewrite (bool_decide_eq_false_2 (k = "__proto__")) by done.
    cbn [andb snd]. by apply obj_get_define.
Qed.

Lemma obj_get_fold (props : list (string * value))
    (acc : prototype value * list (string * value)) (k : string) :
  "__proto__" ∉ (converted props).*1 →
  obj_get
    (fold_left (fun acc kv => obj_set acc (snakeKey kv.1) (toSnakeCase kv.2))
       props acc).2 k
  = match obj_get (reverse (converted props)) k with
    | Some v => Some v
    | None => obj_get acc.2 k
    end.
Proof.
  revert acc. induction props as [|[k0 v0] props IH]; intros acc Hfree.
  - done.
  - unfold converted in *. rewrite !fmap_cons in Hfree. cbn [fst snd] in Hfree.
    apply not_elem_of_cons in Hfree as [Hk0 Hfree].
    cbn [fold_left]. rewrite IH by done.
    rewrite fmap_cons, reverse_cons, obj_get_app. cbn [fst snd].
    destruct (obj_get (reverse _) k); [done|].
    rewrite obj_get_obj_set by done.
    unfold obj_get. cbn [List.find fst snd].
    rewrite (bool_decide_ext (snakeKey k0 = k) (k = snakeKey k0)) by done.
    by case_bool_decide.
Qed.

(** X22.  When no key of an object converts to [__proto__], reading a key
    from the converted object gives the converted value of the last property
    of the source whose converted key is that key: of two properties whose
    keys convert to the same key, the later one wins. *)
Theorem toSnakeCase_last_wins (proto : prototype value)
    (props : list (string * value)) (k : string) :
  "__proto__" ∉ (converted props).*1 →
  match toSnakeCase (VObject proto props) with
  | VObject _ props' =>
      obj_get props' k = obj_get (reverse (converted props)) k
  | _ => False
  end.
Proof.
  intros Hfree. cbn [toSnakeCase].
  rewrite (obj_get_fold props (ObjectPrototype, []) k Hfree).
  by destruct (obj_get (reverse _) k).
Qed.

Lemma toSnakeCase_last_wins_witness :
  ("__proto__" ∉
     (converted [("fooBar", VString "a"); ("foo_bar", VString "b")]).*1)
  ∧ match toSnakeCase
            (VObject ObjectPrototype
               [("fooBar", VString "a"); ("foo_bar", VString "b")]) with
    | VObject _ props' =>
        obj_get props' "foo_bar"
        = obj_get
            (reverse
               (converted [("fooBar", VString "a"); ("foo_bar", VString "b")]))
            "foo_bar"
    | _ => False
    end.
Proof.
  assert ("__proto__" ∉
            (converted [("fooBar", VString "a"); ("foo_bar", VString "b")]).*1)
    as Hfree.
  { intros Hin. by repeat (apply elem_of_cons in Hin as [Hin|Hin]; [done|]);
      apply elem_of_nil in Hin. }
  split; [exact Hfree|].
  exact (toSnakeCase_last_wins ObjectPrototype
           [("fooBar", VString "a"); ("foo_bar", VString "b")] "foo_bar" Hfree).
Defined.

(* ===================================================================== *)
(** ** The interceptors of the HTTP client *)
(* ===================================================================== *)

(** X23.  After the response interceptor has handled an error of status
    401, the request interceptor adds no [Authorization] header, whatever
    was stored; after any other error, also one without a response, requests
    are signed as before.  Whatever the status, no key of the storage other
    than [authToken] and [currentUser] is touched. *)
Theorem unauthorized_signs_out (status : option N) (b : api.browser)
    (headers : gmap string string) :
  api.request_interceptor (api.response_error_interceptor status b) headers
  = (if bool_decide (status = Some 401%N) then headers
     else api.request_interceptor b headers)
  ∧ ∀ k, k ≠ "authToken" → k ≠ "currentUser" →
      api.localStorage (api.response_error_interceptor status b) !! k
      = api.localStorage b !! k.
Proof.
  unfold api.response_error_interceptor. split.
  - case_bool_decide; [|done]. unfold api.request_interceptor.
    cbn [api.localStorage].
    rewrite lookup_delete_ne by done. by rewrite lookup_delete_eq.
  - intros k Ha Hc. case_bool_decide; [|done]. cbn [api.localStorage].
    by rewrite !lookup_delete_ne by done.
Qed.

Lemma unauthorized_signs_out_witness :
  api.request_interceptor
    (api.response_error_interceptor (Some 401%N)
       (api.Browser
          (<["authToken" := "t0k3n"]> (<["theme" := "dark"]> ∅)) "/permits"))
    ∅
  = ∅.
Proof.
  exact (proj1 (unauthorized_signs_out (Some 401%N)
                  (api.Browser
                     (<["authToken" := "t0k3n"]> (<["theme" := "dark"]> ∅))
                     "/permits") ∅)).
Defined.
